(** * Varifold curvature estimator (DGtalTest): kernel, estimator, sign correction

    Shallow embedding of the curvature core of the repository: the class
    [RadialDistance] (kernel profiles and their cut-off), [projection],
    the accumulation loop of [computeLocalCurvature] and the sign correction
    pass of [main].

    Numbers.  The program computes on C++ [double]s.  A [double] is modelled
    as a finite real number, one of the two infinities, or NaN, with the
    IEEE-754 rules for the special values.  Finite arithmetic is exact:
    rounding, overflow and the sign of zero are not modelled (a zero divisor
    is taken as +0, which is what the program's zero divisors are: norms,
    squared norms and sums of positive weights).  [M_PI] is the number pi.

    The mesh library.  DGtal's vector operations are the usual ones; its
    adjacency queries ([vertexInclusionRatio], [computeFacesInclusionsInBall])
    and the mesh data ([faceCentroid], [faceNormal], ...) are parameters. *)

From Stdlib Require Import Reals Lra Lia List Arith Bool.
Import ListNotations.

Open Scope R_scope.

(** * The program *)

(** ** IEEE doubles over the reals *)

Module Dbl.

Inductive double : Type :=
| Fin (x : R)
| Inf (neg : bool)
| NaN.

Definition Rltb (x y : R) : bool := if Rlt_dec x y then true else false.
Definition Reqb (x y : R) : bool := if Req_dec_T x y then true else false.

Definition dneg (a : double) : double :=
  match a with
  | Fin x => Fin (- x)
  | Inf s => Inf (negb s)
  | NaN => NaN
  end.

Definition dadd (a b : double) : double :=
  match a, b with
  | Fin x, Fin y => Fin (x + y)
  | Fin _, Inf s => Inf s
  | Inf s, Fin _ => Inf s
  | Inf s, Inf s' => if Bool.eqb s s' then Inf s else NaN
  | _, _ => NaN
  end.

Definition dsub (a b : double) : double := dadd a (dneg b).

Definition dmul (a b : double) : double :=
  match a, b with
  | Fin x, Fin y => Fin (x * y)
  | Fin x, Inf s => if Reqb x 0 then NaN else Inf (xorb s (Rltb x 0))
  | Inf s, Fin y => if Reqb y 0 then NaN else Inf (xorb s (Rltb y 0))
  | Inf s, Inf s' => Inf (xorb s s')
  | _, _ => NaN
  end.

Definition ddiv (a b : double) : double :=
  match a, b with
  | Fin x, Fin y =>
      if Reqb y 0 then (if Reqb x 0 then NaN else Inf (Rltb x 0))
      else Fin (x / y)
  | Fin _, Inf _ => Fin 0
  | Inf s, Fin y => Inf (xorb s (Rltb y 0))
  | _, _ => NaN
  end.

Definition dsqrt (a : double) : double :=
  match a with
  | Fin x => if Rltb x 0 then NaN else Fin (sqrt x)
  | Inf false => Inf false
  | _ => NaN
  end.

Definition dabs (a : double) : double :=
  match a with
  | Fin x => Fin (Rabs x)
  | Inf _ => Inf false
  | NaN => NaN
  end.

(** [a < b]; every comparison with NaN is false. *)
Definition dlt (a b : double) : bool :=
  match a, b with
  | Fin x, Fin y => Rltb x y
  | Fin _, Inf s => negb s
  | Inf s, Fin _ => s
  | Inf s, Inf s' => s && negb s'
  | _, _ => false
  end.

Definition dgt (a b : double) : bool := dlt b a.

End Dbl.
Export Dbl.

Declare Scope dbl_scope.
Delimit Scope dbl_scope with dbl.
Bind Scope dbl_scope with double.
Notation "a + b" := (dadd a b) : dbl_scope.
Notation "a - b" := (dsub a b) : dbl_scope.
Notation "a * b" := (dmul a b) : dbl_scope.
Notation "a / b" := (ddiv a b) : dbl_scope.
Notation "- a" := (dneg a) : dbl_scope.
Notation "a <? b" := (dlt a b) (at level 70) : dbl_scope.
Notation "a >? b" := (dgt a b) (at level 70) : dbl_scope.

(** [M_PI] of <cmath>, taken as the number pi. *)
Definition M_PI : double := Fin PI.

(** ** Points and vectors

    DGtal's [RealPoint] and [RealVector] are the same type, three [double]
    coordinates.  Its operations are not part of the repository; they are the
    usual component-wise ones, [dot] the sum of the products, [squaredNorm]
    the sum of the squares and [norm] its square root. *)

Record Vec3 (A : Type) : Type := V3 { cx : A; cy : A; cz : A }.
Arguments V3 {A} _ _ _.
Arguments cx {A} _.
Arguments cy {A} _.
Arguments cz {A} _.

Definition vmap {A B : Type} (h : A -> B) (v : Vec3 A) : Vec3 B :=
  V3 (h (cx v)) (h (cy v)) (h (cz v)).

Definition vzip {A B C : Type} (h : A -> B -> C) (u : Vec3 A) (v : Vec3 B) : Vec3 C :=
  V3 (h (cx u) (cx v)) (h (cy u) (cy v)) (h (cz u) (cz v)).

Module DGtal.

Definition RealVector : Type := Vec3 double.
Definition RealPoint : Type := RealVector.

(** [RealVector()] *)
Definition vzero : RealVector := V3 (Fin 0) (Fin 0) (Fin 0).

Definition vadd (u v : RealVector) : RealVector := vzip dadd u v.
Definition vsub (u v : RealVector) : RealVector := vzip dsub u v.
Definition vneg (u : RealVector) : RealVector := vmap dneg u.
(** vector * scalar *)
Definition vmuls (u : RealVector) (c : double) : RealVector := vmap (fun a => (a * c)%dbl) u.
(** scalar * vector *)
Definition smulv (c : double) (u : RealVector) : RealVector := vmap (fun a => (c * a)%dbl) u.
(** vector / scalar *)
Definition vdivs (u : RealVector) (c : double) : RealVector := vmap (fun a => (a / c)%dbl) u.

Definition dot (u v : RealVector) : double :=
  (cx u * cx v + cy u * cy v + cz u * cz v)%dbl.
Definition squaredNorm (u : RealVector) : double := dot u u.
Definition norm (u : RealVector) : double := dsqrt (squaredNorm u).

End DGtal.
Export DGtal.

(** ** The radial kernel: class [RadialDistance] *)

Inductive DistributionType : Type := FlatDisc | Cone | HalfSphere.

Record RadialDistance : Type := mkRadialDistance {
  center : RealPoint;
  radius : double;
  measureFunction : double -> double;
  measureFunctionDerivate : double -> double
}.

(** The three-argument constructor: the switch on the distribution installs
    the two lambdas. *)
Definition RadialDistance_new (center : RealPoint) (radius : double)
    (distribution : DistributionType) : RadialDistance :=
  match distribution with
  | FlatDisc =>
      mkRadialDistance center radius
        (fun dRatio => Fin 3 / (Fin 4 * M_PI))%dbl
        (fun dRatio => Fin 0)
  | Cone =>
      mkRadialDistance center radius
        (fun dRatio => (Fin 1 - dRatio) * M_PI / Fin 12)%dbl
        (fun dRatio => - M_PI / Fin 12)%dbl
  | HalfSphere =>
      mkRadialDistance center radius
        (fun dRatio => (Fin 1 - dRatio * dRatio) / (M_PI * Fin 2))%dbl
        (fun dRatio => - dRatio / M_PI)%dbl
  end.

(** [operator()]: one (weight, derivative) pair per point of [mesh]. *)
Definition RadialDistance_call (rd : RadialDistance) (mesh : list RealPoint)
    : list (double * double) :=
  map (fun b =>
         let d := norm (vsub b (center rd)) in
         if (d <? radius rd)%dbl
         then (measureFunction rd (d / radius rd)%dbl,
               measureFunctionDerivate rd (d / radius rd)%dbl)
         else (Fin 0, Fin 0))
      mesh.

(** ** [projection] *)

Definition projection (toProject planeNormal : RealVector) : RealVector :=
  vsub toProject
       (vmuls planeNormal (dot toProject planeNormal / squaredNorm planeNormal)%dbl).

(** ** [computeLocalCurvature] *)

Inductive Method : Type :=
| TrivialNormalFaceCentroid
| DualNormalFaceCentroid
| CorrectedNormalFaceCentroid
| ProbabilisticOfTrivials
| VertexInterpolation.

(** What the function reads from the mesh library: the primal surface mesh
    with its face and vertex normals computed, and the integral-invariant
    normals of the surfels. *)
Record SurfaceData : Type := mkSurfaceData {
  faceCentroid : list RealPoint;
  faceNormal : list RealVector;
  position : list RealPoint;
  vertexNormal : list RealVector;
  getIINormalVectors : list RealVector
}.

Section Estimator.

Variables (positions : list RealPoint) (normals : list RealVector).
Variables (cRadius : double) (cDistribType : DistributionType).

Definition nbElements : nat := length positions.

(** Body of the inner loop, for the centre [f] at [b] and one [otherF];
    the state is [(tmpSumTop, tmpSumBottom)].  An index out of range reads
    a default (the program never leaves the range of [positions] and
    [weights]; for [normals] that is the caller's duty). *)
Definition accumulate (f : nat) (b : RealPoint) (weights : list (double * double))
    (acc : RealVector * double) (otherF : nat) : RealVector * double :=
  let '(tmpSumTop, tmpSumBottom) := acc in
  let w := fst (nth otherF weights (Fin 0, Fin 0)) in
  if (w >? Fin 0)%dbl then
    let tmpSumTop' :=
      if negb (Nat.eqb f otherF) then
        let tmpVector := vsub (nth otherF positions vzero) b in
        vadd tmpSumTop
             (vdivs (smulv w (projection tmpVector (nth otherF normals vzero)))
                    (norm tmpVector))
      else tmpSumTop in
    (tmpSumTop', (tmpSumBottom + w)%dbl)
  else acc.

(** The two sums of sample [f] when its inner loop ends. *)
Definition sums (f : nat) : RealVector * double :=
  let b := nth f positions vzero in
  let rd := RadialDistance_new b cRadius cDistribType in
  let weights := RadialDistance_call rd positions in
  fold_left (accumulate f b weights) (seq 0 nbElements) (vzero, Fin 0).

(** One turn of the outer loop: the vector pushed for sample [f]. *)
Definition curvatureOf (f : nat) : RealVector :=
  let '(tmpSumTop, tmpSumBottom) := sums f in
  vdivs (vneg tmpSumTop) (tmpSumBottom * cRadius)%dbl.

(** The outer loop, lines 180-198. *)
Definition estimateCurvatures : list RealVector :=
  map curvatureOf (seq 0 nbElements).

End Estimator.

Definition computeLocalCurvature (surface : SurfaceData) (cRadius : double)
    (cDistribType : DistributionType) (method : Method) : list RealVector :=
  match method with
  | TrivialNormalFaceCentroid =>
      estimateCurvatures (faceCentroid surface) (faceNormal surface) cRadius cDistribType
  | DualNormalFaceCentroid =>
      estimateCurvatures (position surface) (vertexNormal surface) cRadius cDistribType
  | CorrectedNormalFaceCentroid =>
      estimateCurvatures (faceCentroid surface) (getIINormalVectors surface)
                         cRadius cDistribType
  | _ => []
  end.

(** ** The sign correction pass of [main] *)

Record Varifold : Type := mkVarifold {
  vf_position : RealPoint;
  planeNormal : RealVector;
  curvature : RealVector
}.

(** [lcsNorm] as first filled: the norm of the curvature, signed by the side
    of the normal it lies on. *)
Definition naiveSigned (v : Varifold) : double :=
  if (dot (planeNormal v) (curvature v) >? Fin 0)%dbl
  then norm (curvature v)
  else (- norm (curvature v))%dbl.

Definition lcsNorm_init (varifolds : list Varifold) : list double :=
  map naiveSigned varifolds.

Definition noVarifold : Varifold := mkVarifold vzero vzero vzero.

(** [l[i] = x] on a vector. *)
Fixpoint assign (l : list double) (i : nat) (x : double) : list double :=
  match l, i with
  | [], _ => []
  | _ :: t, O => x :: t
  | h :: t, S j => h :: assign t j x
  end.

(** [abs(lcsNorm[i]) * (sum < 0 ? -1 : 1)]; [abs] is taken as the [double]
    overload. *)
Definition resign (x sum : double) : double :=
  (dabs x * (if sum <? Fin 0 then Fin (-1) else Fin 1))%dbl.

Section SignCorrection.

(** The mesh library's adjacency queries. *)
Variable vertexInclusionRatio : RealPoint -> double -> nat -> double.
Variable computeFacesInclusionsInBall : double -> nat -> list (nat * double).
(** [primalSurface.position]. *)
Variable vertexPosition : nat -> RealPoint.
Variable nbElements : nat.

(** The inner loop of the vertex branch. *)
Definition vertexSum (lcsNorm : list double) (i : nat) : double :=
  let position := vertexPosition i in
  fold_left
    (fun sum f =>
       if negb (Nat.eqb f i) && (vertexInclusionRatio position (Fin 1) f >? Fin 0)%dbl
       then (sum + nth f lcsNorm NaN)%dbl else sum)
    (seq 0 nbElements) (Fin 0).

(** The inner loop of the face branch. *)
Definition faceSum (lcsNorm : list double) (i : nat) : double :=
  fold_left
    (fun sum (f : nat * double) =>
       if (snd f >? Fin 0)%dbl then (sum + nth (fst f) lcsNorm NaN)%dbl else sum)
    (computeFacesInclusionsInBall (Fin 1) i) (Fin 0).

(** Either outer loop: sample after sample, [lcsNorm] is overwritten in
    place. *)
Definition correctWith (sumOf : list double -> nat -> double)
    (lcsNorm : list double) : list double :=
  fold_left
    (fun l i => assign l i (resign (nth i l NaN) (sumOf l i)))
    (seq 0 nbElements) lcsNorm.

Definition correctSigns (m : Method) (lcsNorm : list double) : list double :=
  match m with
  | DualNormalFaceCentroid => correctWith vertexSum lcsNorm
  | _ => correctWith faceSum lcsNorm
  end.

End SignCorrection.

(** * The mathematics of the claims *)

(** ** Real vectors: the finite inputs *)

Module RV.

Definition RVec : Type := Vec3 R.

Definition rzero : RVec := V3 0 0 0.
Definition radd (u v : RVec) : RVec := vzip Rplus u v.
Definition rsub (u v : RVec) : RVec := vzip Rminus u v.
Definition ropp (u : RVec) : RVec := vmap Ropp u.
Definition rscale (c : R) (u : RVec) : RVec := vmap (Rmult c) u.
Definition rdot (u v : RVec) : R := cx u * cx v + cy u * cy v + cz u * cz v.
Definition rnorm2 (u : RVec) : R := rdot u u.
Definition rnorm (u : RVec) : R := sqrt (rnorm2 u).

(** A real vector as a vector of finite doubles. *)
Definition vfin (u : RVec) : RealVector := vmap Fin u.

(** The vector whose three coordinates are NaN. *)
Definition vNaN : RealVector := V3 NaN NaN NaN.

End RV.
Export RV.


(** ** The closed forms of the kernel profiles and the curvature formula,
       on real numbers *)

(** The profiles [weight] and [weight'] as the description gives them. *)
Definition profile (k : DistributionType) (t : R) : R :=
  match k with
  | FlatDisc => 3 / (4 * PI)
  | Cone => (1 - t) * PI / 12
  | HalfSphere => (1 - t * t) / (2 * PI)
  end.

Definition profile' (k : DistributionType) (t : R) : R :=
  match k with
  | FlatDisc => 0
  | Cone => - PI / 12
  | HalfSphere => - t / PI
  end.

(** The kernel weight at normalised distance [t]: the profile inside the
    unit ball, zero from [t = 1] on. *)
Definition weight (k : DistributionType) (t : R) : R :=
  if Rlt_dec t 1 then profile k t else 0.

(** A real vector, or nothing when a division by zero makes it undefined;
    on the program's side that is the vector of NaNs. *)
Definition embed (o : option RVec) : RealVector :=
  match o with
  | Some u => vfin u
  | None => vNaN
  end.

Definition rdivs (u : RVec) (c : R) : RVec := vmap (fun a => a / c) u.

(** [proj(v, n) = v - n (v.n) / |n|^2] *)
Definition rproj (v n : RVec) : RVec :=
  vzip (fun a b => a - b * (rdot v n / rnorm2 n)) v n.

(** [w proj(v, n) / |v|], undefined when [|n|^2] or [|v|] is zero. *)
Definition contribution (w : R) (v n : RVec) : option RVec :=
  if Req_dec_T (rnorm2 n) 0 then None
  else if Req_dec_T (rnorm v) 0 then None
  else Some (rdivs (rscale w (rproj v n)) (rnorm v)).

Definition oadd (a b : option RVec) : option RVec :=
  match a, b with
  | Some u, Some v => Some (radd u v)
  | _, _ => None
  end.

Definition osum (l : list (option RVec)) : option RVec :=
  fold_right oadd (Some rzero) l.

Definition Rsum (l : list R) : R := fold_right Rplus 0 l.

Section Formula.

Variables (positions normals : list RVec).
Variables (R0 : R) (k : DistributionType).

Definition pos (g : nat) : RVec := nth g positions rzero.
Definition nrm (g : nat) : RVec := nth g normals rzero.

(** [w_g = weight(|position[f] - position[g]| / R)] *)
Definition w_ (f g : nat) : R := weight k (rnorm (rsub (pos f) (pos g)) / R0).

(** The samples [g <> f] with [w_g > 0]. *)
Definition others (f : nat) : list nat :=
  filter (fun g => negb (Nat.eqb g f) && Rltb 0 (w_ f g)) (seq 0 (length positions)).

(** Every sample [g], [f] included, with [w_g > 0]. *)
Definition inBall (f : nat) : list nat :=
  filter (fun g => Rltb 0 (w_ f g)) (seq 0 (length positions)).

Definition numerator (f : nat) : option RVec :=
  osum (map (fun g => contribution (w_ f g) (rsub (pos g) (pos f)) (nrm g)) (others f)).

Definition denominator (f : nat) : R := Rsum (map (w_ f) (inBall f)).

(** [curvature[f] = - numerator / (D R)] *)
Definition curvature_formula (f : nat) : option RVec :=
  match numerator f with
  | Some num => Some (rdivs (ropp num) (denominator f * R0))
  | None => None
  end.

(** The same computation in the order of the program: the cut-off is the
    test [d < R] and the two sums grow together along the samples. *)
Definition rweight (d : R) : R :=
  if Rlt_dec d R0 then profile k (d / R0) else 0.

Definition rstep (f : nat) (acc : option RVec * R) (g : nat) : option RVec * R :=
  let w := rweight (rnorm (rsub (pos g) (pos f))) in
  if Rltb 0 w then
    ((if negb (Nat.eqb f g)
      then oadd (fst acc) (contribution w (rsub (pos g) (pos f)) (nrm g))
      else fst acc),
     snd acc + w)
  else acc.

Definition rsums (f : nat) : option RVec * R :=
  fold_left (rstep f) (seq 0 (length positions)) (Some rzero, 0).

Definition rcurvature (f : nat) : option RVec :=
  match rsums f with
  | (Some top, bottom) =>
      if Req_dec_T (bottom * R0) 0 then None
      else Some (rdivs (ropp top) (bottom * R0))
  | (None, _) => None
  end.

End Formula.

(** ** Rigid motions *)

Record Mat3 : Type := mkMat3 { row1 : RVec; row2 : RVec; row3 : RVec }.

Definition mapply (Q : Mat3) (u : RVec) : RVec :=
  V3 (rdot (row1 Q) u) (rdot (row2 Q) u) (rdot (row3 Q) u).

(** The columns of [Q] are orthonormal: [Q^T Q = I]. *)
Definition col (Q : Mat3) (c : RVec -> R) : RVec :=
  V3 (c (row1 Q)) (c (row2 Q)) (c (row3 Q)).

Definition orthogonal (Q : Mat3) : Prop :=
  rdot (col Q cx) (col Q cx) = 1 /\ rdot (col Q cy) (col Q cy) = 1 /\
  rdot (col Q cz) (col Q cz) = 1 /\ rdot (col Q cx) (col Q cy) = 0 /\
  rdot (col Q cx) (col Q cz) = 0 /\ rdot (col Q cy) (col Q cz) = 0.

Definition rigid (Q : Mat3) (t : RVec) (p : RVec) : RVec := radd (mapply Q p) t.

(** [Q] applied to a vector of doubles, with the arithmetic of doubles. *)
Definition dapply (Q : Mat3) (u : RealVector) : RealVector :=
  V3 (dot (vfin (row1 Q)) u) (dot (vfin (row2 Q)) u) (dot (vfin (row3 Q)) u).

(** ** The sign correction as the description states it *)

Section ClaimedCorrection.

Variable vertexInclusionRatio : RealPoint -> double -> nat -> double.
Variable computeFacesInclusionsInBall : double -> nat -> list (nat * double).
Variable vertexPosition : nat -> RealPoint.
Variable nbElements : nat.

(** The inclusion-weighted sum of the naive values of the neighbours of [i],
    [i] left out: over the vertices, and over the faces of the ball query. *)
Definition weightedVertexSum (naive : list double) (i : nat) : double :=
  fold_left
    (fun sum f =>
       let ratio := vertexInclusionRatio (vertexPosition i) (Fin 1) f in
       if negb (Nat.eqb f i) && (ratio >? Fin 0)%dbl
       then (sum + ratio * nth f naive NaN)%dbl else sum)
    (seq 0 nbElements) (Fin 0).

Definition weightedFaceSum (naive : list double) (i : nat) : double :=
  fold_left
    (fun sum (f : nat * double) =>
       if negb (Nat.eqb (fst f) i) && (snd f >? Fin 0)%dbl
       then (sum + snd f * nth (fst f) naive NaN)%dbl else sum)
    (computeFacesInclusionsInBall (Fin 1) i) (Fin 0).

Definition claimedSigns (m : Method) (naive : list double) : list double :=
  map (fun i =>
         resign (nth i naive NaN)
                (match m with
                 | DualNormalFaceCentroid => weightedVertexSum naive i
                 | _ => weightedFaceSum naive i
                 end))
      (seq 0 nbElements).

End ClaimedCorrection.

(** What sample [i] reads when its turn comes: the values already corrected
    below [i], the naive ones from [i] on. *)
Definition seen (final init : list double) (i : nat) : list double :=
  firstn i final ++ skipn i init.

Definition dsum (l : list double) : double := fold_left dadd l (Fin 0).

(** The loop that overwrites [l[i]] with [upd l i] for [i = 0 .. m-1]. *)
Definition sweep (upd : list double -> nat -> double) (m : nat) (l : list double)
    : list double :=
  fold_left (fun l i => assign l i (upd l i)) (seq 0 m) l.

Section Neighbours.

Variable vertexInclusionRatio : RealPoint -> double -> nat -> double.
Variable computeFacesInclusionsInBall : double -> nat -> list (nat * double).
Variable vertexPosition : nat -> RealPoint.
Variable nbElements : nat.

(** The samples whose value enters the sum of sample [i]: in the vertex
    pass the vertices other than [i] with a positive inclusion ratio, in a
    face pass the faces that the ball query lists with a positive ratio. *)
Definition neighbours (m : Method) (i : nat) : list nat :=
  match m with
  | DualNormalFaceCentroid =>
      filter (fun f => negb (Nat.eqb f i)
                       && (vertexInclusionRatio (vertexPosition i) (Fin 1) f >? Fin 0)%dbl)
             (seq 0 nbElements)
  | _ =>
      map fst (filter (fun e : nat * double => (snd e >? Fin 0)%dbl)
                      (computeFacesInclusionsInBall (Fin 1) i))
  end.

End Neighbours.

(** ** Sample data *)

Module Samples.

(** Three vertices on a line, at abscissas 0, 1 and 2, and the inclusion
    ratio of the mesh library for vertices: 1 for a vertex within distance 1
    of the point, 0 otherwise. *)
Definition linePosition (i : nat) : RealPoint :=
  match i with
  | O => V3 (Fin 0) (Fin 0) (Fin 0)
  | S O => V3 (Fin 1) (Fin 0) (Fin 0)
  | _ => V3 (Fin 2) (Fin 0) (Fin 0)
  end.

Definition lineRatio (p : RealPoint) (r : double) (f : nat) : double :=
  match cx p with
  | Fin x =>
      if Reqb x 0 then
        match f with 0%nat | 1%nat => Fin 1 | _ => Fin 0 end
      else if Reqb x 1 then
        match f with 0%nat | 1%nat | 2%nat => Fin 1 | _ => Fin 0 end
      else
        match f with 1%nat | 2%nat => Fin 1 | _ => Fin 0 end
  | _ => Fin 0
  end.

(** Three faces; the ball of face 0 takes a quarter of face 1 and the whole
    of face 2, the balls of faces 1 and 2 list nothing. *)
Definition quarterFaces (r : double) (i : nat) : list (nat * double) :=
  match i with
  | O => [(1%nat, Fin (1 / 4)); (2%nat, Fin 1)]
  | _ => []
  end.

(** Two faces, each listing the other with ratio 1. *)
Definition pairFaces (r : double) (i : nat) : list (nat * double) :=
  match i with
  | O => [(1%nat, Fin 1)]
  | _ => [(0%nat, Fin 1)]
  end.

Definition noRatio (p : RealPoint) (r : double) (f : nat) : double := Fin 0.

(** Three varifolds whose naive signed curvatures are -1, 5 and 1/2. *)
Definition lineVarifolds : list Varifold :=
  [mkVarifold (linePosition 0) (vfin (V3 0 0 1)) (vfin (V3 0 0 (-1)));
   mkVarifold (linePosition 1) (vfin (V3 0 0 1)) (vfin (V3 0 0 5));
   mkVarifold (linePosition 2) (vfin (V3 0 0 1)) (vfin (V3 0 0 (1 / 2)))].

(** Three varifolds whose naive signed curvatures are 1, 5 and -2. *)
Definition faceVarifolds : list Varifold :=
  [mkVarifold vzero (vfin (V3 0 0 1)) (vfin (V3 0 0 1));
   mkVarifold vzero (vfin (V3 0 0 1)) (vfin (V3 0 0 5));
   mkVarifold vzero (vfin (V3 0 0 1)) (vfin (V3 0 0 (-2)))].

(** Two faces with naive signed curvatures -1 and 1. *)
Definition pairVarifolds : list Varifold :=
  [mkVarifold vzero (vfin (V3 0 0 1)) (vfin (V3 0 0 (-1)));
   mkVarifold vzero (vfin (V3 0 0 1)) (vfin (V3 0 0 1))].

(** A quarter turn about the third axis. *)
Definition quarterTurn : Mat3 := mkMat3 (V3 0 (-1) 0) (V3 1 0 0) (V3 0 0 1).

(** Five coplanar samples with the same normal. *)
Definition cross : list RVec :=
  [V3 0 0 0; V3 1 0 0; V3 0 1 0; V3 (-1) 0 0; V3 0 (-1) 0].

Definition upward : list RVec :=
  [V3 0 0 1; V3 0 0 1; V3 0 0 1; V3 0 0 1; V3 0 0 1].

(** The distances between the five samples: the centre is at 1 from the
    others, opposite outer samples are at 2, adjacent ones at [sqrt 2]. *)
Definition crossDist (f g : nat) : R :=
  if Nat.eqb f g then 0
  else if Nat.eqb f 0 || Nat.eqb g 0 then 1
  else if Nat.eqb (f + 2) g || Nat.eqb (g + 2) f then 2
  else sqrt 2.

End Samples.
Export Samples.

(** * The rest of the program *)

From Stdlib Require String.

(** ** [computeVarifolds] *)

(** The mesh is copied and its normals are computed again, by the same
    library calls as in [computeLocalCurvature]: the same [SurfaceData].
    [nbFaces] and [nbVertices] are the lengths of [faceCentroid] and
    [position]. *)
Definition computeVarifolds (surface : SurfaceData) (cRadius : double)
    (cDistribType : DistributionType) (method : Method) : list Varifold :=
  let curvatures := computeLocalCurvature surface cRadius cDistribType method in
  match method with
  | TrivialNormalFaceCentroid | CorrectedNormalFaceCentroid =>
      let normals :=
        match method with
        | CorrectedNormalFaceCentroid => getIINormalVectors surface
        | _ => faceNormal surface
        end in
      map (fun f => mkVarifold (nth f (faceCentroid surface) vzero)
                               (nth f normals vzero) (nth f curvatures vzero))
          (seq 0 (length (faceCentroid surface)))
  | DualNormalFaceCentroid =>
      map (fun v => mkVarifold (nth v (position surface) vzero)
                               (nth v (vertexNormal surface) vzero)
                               (nth v curvatures vzero))
          (seq 0 (length (position surface)))
  | _ => []
  end.

(** The positions and the normals [computeLocalCurvature] feeds to the
    estimator for a method. *)
Definition methodPositions (surface : SurfaceData) (method : Method) : list RealPoint :=
  match method with
  | TrivialNormalFaceCentroid | CorrectedNormalFaceCentroid => faceCentroid surface
  | DualNormalFaceCentroid => position surface
  | _ => []
  end.

Definition methodNormals (surface : SurfaceData) (method : Method) : list RealVector :=
  match method with
  | TrivialNormalFaceCentroid => faceNormal surface
  | DualNormalFaceCentroid => vertexNormal surface
  | CorrectedNormalFaceCentroid => getIINormalVectors surface
  | _ => []
  end.

(** ** The command line names *)

Module CommandLine.

Import String.

Definition argToDistribType (arg : String.string) : DistributionType :=
  if String.eqb arg "fd"%string then FlatDisc
  else if String.eqb arg "c"%string then Cone
  else HalfSphere.

Definition argToMethod (arg : String.string) : Method :=
  if String.eqb arg "tnfc"%string then TrivialNormalFaceCentroid
  else if String.eqb arg "dnfc"%string then DualNormalFaceCentroid
  else if String.eqb arg "cnfc"%string then CorrectedNormalFaceCentroid
  else if String.eqb arg "pot"%string then ProbabilisticOfTrivials
  else VertexInterpolation.

Definition methodToString (method : Method) : String.string :=
  match method with
  | TrivialNormalFaceCentroid => "Trivial Normal Face Centroid"%string
  | DualNormalFaceCentroid => "Dual Normal Face Centroid"%string
  | CorrectedNormalFaceCentroid => "Corrected Normal Face Centroid"%string
  | ProbabilisticOfTrivials => "Probabilistic Of Trivials"%string
  | VertexInterpolation => "Vertex Interpolation"%string
  end.

End CommandLine.
Export CommandLine.

(** ** [makeColorMap] and the choice of the map in [main] *)

Record Color : Type := mkColor { red : nat; green : nat; blue : nat }.

(** A gradient colour map of the library, as far as the program builds it:
    its range and the colours added, in order. *)
Record GradientColorMap : Type := mkGradientColorMap {
  gcmMin : double;
  gcmMax : double;
  gcmColors : list Color
}.

Definition addColor (gcm : GradientColorMap) (c : Color) : GradientColorMap :=
  mkGradientColorMap (gcmMin gcm) (gcmMax gcm) (gcmColors gcm ++ [c]).

Definition makeColorMap (minv maxv : double) : GradientColorMap * GradientColorMap :=
  if (maxv <? Fin 0)%dbl then
    let gcm := addColor (addColor (mkGradientColorMap minv maxv []) (mkColor 0 0 255))
                        (mkColor 255 255 255) in
    (gcm, gcm)
  else if (minv >? Fin 0)%dbl then
    let gcm := addColor (addColor (addColor (mkGradientColorMap minv maxv [])
                                            (mkColor 255 255 255))
                                  (mkColor 255 0 0))
                        (mkColor 0 0 0) in
    (gcm, gcm)
  else
    let gcm := addColor (addColor (mkGradientColorMap minv (Fin 0) []) (mkColor 0 0 255))
                        (mkColor 255 255 255) in
    let gcm2 := addColor (addColor (addColor (mkGradientColorMap (Fin 0) maxv [])
                                             (mkColor 255 255 255))
                                   (mkColor 255 0 0))
                         (mkColor 0 0 0) in
    (gcm, gcm2).

(** [lcsNorm[i] < 0 ? colormap.first : colormap.second] *)
Definition colorMapFor (colormap : GradientColorMap * GradientColorMap) (x : double)
    : GradientColorMap :=
  if (x <? Fin 0)%dbl then fst colormap else snd colormap.

(** ** Notions used to state further properties *)

(** The value of a finite double. *)
Definition dval (a : double) : R :=
  match a with
  | Fin x => x
  | _ => 0
  end.

(** A finite double that is not negative. *)
Definition nonneg (a : double) : Prop :=
  match a with
  | Fin x => 0 <= x
  | _ => False
  end.

(** * Lemmas *)

(** ** Finite arithmetic is real arithmetic *)

Lemma Rltb_true (x y : R) : x < y -> Rltb x y = true.
Proof. intros H; unfold Rltb; destruct (Rlt_dec x y); [reflexivity | contradiction]. Qed.

Lemma Rltb_false (x y : R) : ~ x < y -> Rltb x y = false.
Proof. intros H; unfold Rltb; destruct (Rlt_dec x y); [contradiction | reflexivity]. Qed.

Lemma Rltb_spec (x y : R) : Rltb x y = true <-> x < y.
Proof.
  unfold Rltb; destruct (Rlt_dec x y); split; intros H; auto; discriminate.
Qed.

Lemma Reqb_true (x y : R) : x = y -> Reqb x y = true.
Proof. intros H; unfold Reqb; destruct (Req_dec_T x y); [reflexivity | contradiction]. Qed.

Lemma Reqb_false (x y : R) : x <> y -> Reqb x y = false.
Proof. intros H; unfold Reqb; destruct (Req_dec_T x y); [contradiction | reflexivity]. Qed.

Lemma ddiv_Fin (x y : R) : y <> 0 -> (Fin x / Fin y)%dbl = Fin (x / y).
Proof. intros H; simpl; rewrite (Reqb_false _ _ H); reflexivity. Qed.

Lemma ddiv_zero_zero : (Fin 0 / Fin 0)%dbl = NaN.
Proof. simpl; rewrite !Reqb_true; reflexivity. Qed.




Lemma rnorm2_nonneg (u : RVec) : 0 <= rnorm2 u.
Proof. unfold rnorm2, rdot; nra. Qed.

Lemma rnorm_nonneg (u : RVec) : 0 <= rnorm u.
Proof. apply sqrt_pos. Qed.

Lemma rnorm2_zero (u : RVec) : rnorm2 u = 0 -> u = rzero.
Proof.
  destruct u as [x y z]; unfold rnorm2, rdot, rzero; simpl; intros H.
  assert (x = 0) by nra. assert (y = 0) by nra. assert (z = 0) by nra.
  subst; reflexivity.
Qed.

Lemma rnorm_zero (u : RVec) : rnorm u = 0 -> u = rzero.
Proof.
  intros H; apply rnorm2_zero, sqrt_eq_0; [apply rnorm2_nonneg | exact H].
Qed.

Lemma rnorm_rzero : rnorm rzero = 0.
Proof.
  unfold rnorm, rnorm2, rdot, rzero; simpl.
  replace (0 * 0 + 0 * 0 + 0 * 0) with 0 by ring. apply sqrt_0.
Qed.

Lemma rnorm_rsub_sym (u v : RVec) : rnorm (rsub u v) = rnorm (rsub v u).
Proof.
  unfold rnorm, rnorm2, rdot, rsub; simpl; f_equal; ring.
Qed.

Lemma rsub_self (u : RVec) : rsub u u = rzero.
Proof. destruct u; unfold rsub, rzero, vzip; simpl; f_equal; ring. Qed.

Lemma vsub_vfin (u v : RVec) : vsub (vfin u) (vfin v) = vfin (rsub u v).
Proof. reflexivity. Qed.


Lemma vneg_vfin (u : RVec) : vneg (vfin u) = vfin (ropp u).
Proof. reflexivity. Qed.

Lemma dot_vfin (u v : RVec) : dot (vfin u) (vfin v) = Fin (rdot u v).
Proof. reflexivity. Qed.

Lemma squaredNorm_vfin (u : RVec) : squaredNorm (vfin u) = Fin (rnorm2 u).
Proof. reflexivity. Qed.

Lemma norm_vfin (u : RVec) : norm (vfin u) = Fin (rnorm u).
Proof.
  unfold norm; rewrite squaredNorm_vfin; simpl.
  rewrite Rltb_false; [reflexivity | pose proof (rnorm2_nonneg u); lra].
Qed.

Lemma vzero_vfin : vzero = vfin rzero.
Proof. reflexivity. Qed.

Lemma nth_map_vfin (l : list RVec) (i : nat) :
  nth i (map vfin l) vzero = vfin (nth i l rzero).
Proof. rewrite vzero_vfin; apply map_nth. Qed.

(** ** The kernel on finite arguments *)


Lemma measureFunction_Fin (c : RealPoint) (r : double) (k : DistributionType) (t : R) :
  measureFunction (RadialDistance_new c r k) (Fin t) = Fin (profile k t).
Proof.
  pose proof PI_RGT_0 as Hpi.
  destruct k; unfold RadialDistance_new, measureFunction, M_PI, profile.
  - change (Fin 4 * Fin PI)%dbl with (Fin (4 * PI)).
    rewrite ddiv_Fin by lra. reflexivity.
  - change ((Fin 1 - Fin t) * Fin PI)%dbl with (Fin ((1 + - t) * PI)).
    rewrite ddiv_Fin by lra. f_equal.
  - change (Fin 1 - Fin t * Fin t)%dbl with (Fin (1 + - (t * t))).
    change (Fin PI * Fin 2)%dbl with (Fin (PI * 2)).
    rewrite ddiv_Fin by lra. f_equal. field. lra.
Qed.

Lemma measureFunctionDerivate_Fin (c : RealPoint) (r : double) (k : DistributionType) (t : R) :
  measureFunctionDerivate (RadialDistance_new c r k) (Fin t) = Fin (profile' k t).
Proof.
  pose proof PI_RGT_0 as Hpi.
  destruct k; unfold RadialDistance_new, measureFunctionDerivate, M_PI, profile'.
  - reflexivity.
  - change (- Fin PI)%dbl with (Fin (- PI)). rewrite ddiv_Fin by lra. reflexivity.
  - change (- Fin t)%dbl with (Fin (- t)). rewrite ddiv_Fin by lra. reflexivity.
Qed.

Lemma center_new c r k : center (RadialDistance_new c r k) = c.
Proof. destruct k; reflexivity. Qed.

Lemma radius_new c r k : radius (RadialDistance_new c r k) = r.
Proof. destruct k; reflexivity. Qed.

(** The pair [operator()] returns for the [g]-th point, on finite data. *)
Lemma call_nth (c : RVec) (R0 : R) (k : DistributionType) (mesh : list RVec) (g : nat) :
  (g < length mesh)%nat ->
  nth g (RadialDistance_call (RadialDistance_new (vfin c) (Fin R0) k) (map vfin mesh))
        (Fin 0, Fin 0)
  = let d := rnorm (rsub (nth g mesh rzero) c) in
    if Rlt_dec d R0
    then (Fin (profile k (d / R0)), Fin (profile' k (d / R0)))
    else (Fin 0, Fin 0).
Proof.
  intros Hg. unfold RadialDistance_call.
  rewrite map_map.
  rewrite (nth_indep _ _
             ((fun x => let d := norm (vsub (vfin x) (center (RadialDistance_new (vfin c) (Fin R0) k))) in
                        if (d <? radius (RadialDistance_new (vfin c) (Fin R0) k))%dbl
                        then (measureFunction (RadialDistance_new (vfin c) (Fin R0) k)
                                (d / radius (RadialDistance_new (vfin c) (Fin R0) k))%dbl,
                              measureFunctionDerivate (RadialDistance_new (vfin c) (Fin R0) k)
                                (d / radius (RadialDistance_new (vfin c) (Fin R0) k))%dbl)
                        else (Fin 0, Fin 0)) rzero))
    by (rewrite length_map; exact Hg).
  rewrite (map_nth (fun x => _) mesh rzero g).
  cbv zeta. rewrite center_new, radius_new, vsub_vfin, norm_vfin.
  set (d := rnorm (rsub (nth g mesh rzero) c)).
  unfold dlt, Rltb. destruct (Rlt_dec d R0) as [Hlt | Hge]; [ | reflexivity].
  assert (R0 <> 0) by (pose proof (rnorm_nonneg (rsub (nth g mesh rzero) c)); fold d in H; lra).
  rewrite ddiv_Fin by assumption.
  rewrite measureFunction_Fin, measureFunctionDerivate_Fin. reflexivity.
Qed.

(** ** The accumulation on finite data *)

Lemma vadd_embed (a b : option RVec) : vadd (embed a) (embed b) = embed (oadd a b).
Proof. destruct a as [u|], b as [v|]; reflexivity. Qed.



Lemma vdivs_vfin (u : RVec) (c : R) : c <> 0 -> vdivs (vfin u) (Fin c) = vfin (rdivs u c).
Proof.
  intros Hc. unfold vdivs, vfin, rdivs, vmap; cbn [cx cy cz].
  rewrite !ddiv_Fin by assumption. reflexivity.
Qed.

Lemma vdivs_zero_zero (u : RVec) (c : R) :
  u = rzero -> c = 0 -> vdivs (vfin u) (Fin c) = vNaN.
Proof.
  intros -> ->. unfold vdivs, vfin, vmap, rzero; cbn [cx cy cz].
  rewrite ddiv_zero_zero. reflexivity.
Qed.

Lemma projection_vfin (v n : RVec) :
  rnorm2 n <> 0 -> projection (vfin v) (vfin n) = vfin (rproj v n).
Proof.
  intros Hn. unfold projection. rewrite dot_vfin, squaredNorm_vfin, ddiv_Fin by assumption.
  unfold vsub, vmuls, vfin, rproj, vzip, vmap; simpl. f_equal; f_equal; ring.
Qed.

Lemma projection_degenerate (v n : RVec) :
  rnorm2 n = 0 -> projection (vfin v) (vfin n) = vNaN.
Proof.
  intros Hn. pose proof (rnorm2_zero _ Hn) as ->.
  unfold projection. rewrite dot_vfin, squaredNorm_vfin.
  replace (rdot v rzero) with 0 by (unfold rdot, rzero; simpl; ring).
  replace (rnorm2 rzero) with 0 by (unfold rnorm2, rdot, rzero; simpl; ring).
  rewrite ddiv_zero_zero. reflexivity.
Qed.

Lemma rproj_rzero (n : RVec) : rproj rzero n = rzero.
Proof.
  unfold rproj, rzero, vzip, rdot; simpl. f_equal; unfold Rdiv; ring.
Qed.

Lemma rscale_rzero (w : R) : rscale w rzero = rzero.
Proof. unfold rscale, rzero, vmap; simpl. f_equal; ring. Qed.

(** One neighbour's term, as the program computes it. *)
Lemma term_embed (w : R) (v n : RVec) :
  vdivs (smulv (Fin w) (projection (vfin v) (vfin n))) (norm (vfin v))
  = embed (contribution w v n).
Proof.
  unfold contribution.
  destruct (Req_dec_T (rnorm2 n) 0) as [Hn | Hn].
  - rewrite projection_degenerate by assumption. reflexivity.
  - rewrite projection_vfin by assumption. rewrite norm_vfin.
    change (smulv (Fin w) (vfin (rproj v n))) with (vfin (rscale w (rproj v n))).
    destruct (Req_dec_T (rnorm v) 0) as [Hv | Hv].
    + simpl. apply vdivs_zero_zero; [ | assumption].
      rewrite (rnorm_zero _ Hv), rproj_rzero. apply rscale_rzero.
    + simpl. apply vdivs_vfin; assumption.
Qed.

Section Mirror.

Variables (ps ns : list RVec) (R0 : R) (k : DistributionType).

Let P := map vfin ps.
Let N := map vfin ns.

Lemma accumulate_mirror (f g : nat) (o : option RVec) (D : R) :
  (g < length ps)%nat ->
  accumulate P N f (vfin (pos ps f))
    (RadialDistance_call (RadialDistance_new (vfin (pos ps f)) (Fin R0) k) P)
    (embed o, Fin D) g
  = (embed (fst (rstep ps ns R0 k f (o, D) g)), Fin (snd (rstep ps ns R0 k f (o, D) g))).
Proof.
  intros Hg. unfold accumulate, rstep, P, N.
  rewrite call_nth by assumption. cbv zeta.
  fold (pos ps g). unfold rweight.
  destruct (Rlt_dec (rnorm (rsub (pos ps g) (pos ps f))) R0) as [Hd | Hd].
  - cbn [fst snd]. unfold dgt, dlt.
    destruct (Rltb 0 (profile k (rnorm (rsub (pos ps g) (pos ps f)) / R0))); [ | reflexivity].
    destruct (negb (Nat.eqb f g)); [ | reflexivity].
    rewrite !nth_map_vfin, vsub_vfin. fold (pos ps g) (nrm ns g).
    rewrite term_embed, vadd_embed. reflexivity.
  - cbn [fst snd]. unfold dgt, dlt. rewrite Rltb_false by lra. reflexivity.
Qed.

Lemma fold_accumulate_mirror (f : nat) (l : list nat) (o : option RVec) (D : R) :
  Forall (fun g => (g < length ps)%nat) l ->
  fold_left
    (accumulate P N f (vfin (pos ps f))
       (RadialDistance_call (RadialDistance_new (vfin (pos ps f)) (Fin R0) k) P))
    l (embed o, Fin D)
  = (embed (fst (fold_left (rstep ps ns R0 k f) l (o, D))),
     Fin (snd (fold_left (rstep ps ns R0 k f) l (o, D)))).
Proof.
  revert o D. induction l as [ | g l IH]; intros o D Hl.
  - reflexivity.
  - inversion Hl as [ | ? ? Hg Hl']; subst.
    cbn [fold_left]. rewrite accumulate_mirror by assumption.
    destruct (rstep ps ns R0 k f (o, D) g) as [o' D'] eqn:E.
    cbn [fst snd]. apply IH; assumption.
Qed.

Lemma seq_bound (n : nat) : Forall (fun g => (g < n)%nat) (seq 0 n).
Proof. apply Forall_forall. intros g Hg. apply in_seq in Hg. lia. Qed.

(** The two sums of the program are the two real sums. *)
Lemma sums_mirror (f : nat) :
  sums P N (Fin R0) k f
  = (embed (fst (rsums ps ns R0 k f)), Fin (snd (rsums ps ns R0 k f))).
Proof.
  unfold sums, rsums, nbElements. cbv zeta.
  pose proof (fold_accumulate_mirror f (seq 0 (length ps)) (Some rzero) 0
                (seq_bound (length ps))) as H.
  assert (E : @length RealPoint P = length ps) by apply length_map.
  rewrite E. unfold P in *. rewrite nth_map_vfin. exact H.
Qed.

(** The weights are never negative. *)
Lemma rstep_cases (f g : nat) (acc : option RVec * R) :
  rstep ps ns R0 k f acc g = acc \/
  (0 < R0 /\ exists w, 0 < w /\ snd (rstep ps ns R0 k f acc g) = snd acc + w).
Proof.
  unfold rstep, rweight.
  destruct (Rlt_dec (rnorm (rsub (pos ps g) (pos ps f))) R0) as [Hd | Hd].
  - destruct (Rltb 0 _) eqn:E; [right | left; reflexivity].
    apply Rltb_spec in E. split.
    + pose proof (rnorm_nonneg (rsub (pos ps g) (pos ps f))). lra.
    + eexists; split; [exact E | reflexivity].
  - rewrite Rltb_false by lra. left; reflexivity.
Qed.

Lemma fold_rstep_inv (f : nat) (l : list nat) (acc : option RVec * R) :
  0 <= snd acc ->
  fold_left (rstep ps ns R0 k f) l acc = acc \/
  (0 < R0 /\ 0 < snd (fold_left (rstep ps ns R0 k f) l acc)).
Proof.
  revert acc. induction l as [ | g l IH]; intros acc Hacc.
  - left; reflexivity.
  - cbn [fold_left].
    destruct (rstep_cases f g acc) as [E | [HR [w [Hw E]]]].
    + rewrite E. apply IH; assumption.
    + right. split; [assumption | ].
      destruct (IH (rstep ps ns R0 k f acc g)) as [E' | [_ H]]; [lra | | exact H].
      rewrite E'. lra.
Qed.

Lemma rsums_degenerate (f : nat) :
  snd (rsums ps ns R0 k f) * R0 = 0 -> rsums ps ns R0 k f = (Some rzero, 0).
Proof.
  unfold rsums. intros H.
  destruct (fold_rstep_inv f (seq 0 (length ps)) (Some rzero, 0)) as [E | [HR HD]].
  - simpl; lra.
  - exact E.
  - exfalso. nra.
Qed.

(** The vector pushed for a sample is the real curvature, or the vector of
    NaNs where that is undefined. *)
Lemma curvatureOf_mirror (f : nat) :
  curvatureOf P N (Fin R0) k f = embed (rcurvature ps ns R0 k f).
Proof.
  unfold curvatureOf, rcurvature. rewrite sums_mirror.
  pose proof (rsums_degenerate f) as Hdeg.
  destruct (rsums ps ns R0 k f) as [[top | ] bottom]; cbn [fst snd embed] in *.
  - change (Fin bottom * Fin R0)%dbl with (Fin (bottom * R0)).
    rewrite vneg_vfin.
    destruct (Req_dec_T (bottom * R0) 0) as [Hz | Hz].
    + specialize (Hdeg Hz). injection Hdeg as -> ->.
      apply vdivs_zero_zero; [ | assumption].
      unfold ropp, rzero, vmap; simpl. f_equal; ring.
    + apply vdivs_vfin; assumption.
  - reflexivity.
Qed.

Lemma estimateCurvatures_mirror :
  estimateCurvatures P N (Fin R0) k
  = map (fun f => embed (rcurvature ps ns R0 k f)) (seq 0 (length ps)).
Proof.
  unfold estimateCurvatures, nbElements.
  assert (E : @length RealPoint P = length ps) by apply length_map.
  rewrite E. apply map_ext. intros f. apply curvatureOf_mirror.
Qed.

Lemma estimateCurvatures_nth (f : nat) :
  (f < length ps)%nat ->
  nth f (estimateCurvatures P N (Fin R0) k) vzero = embed (rcurvature ps ns R0 k f).
Proof.
  intros Hf. rewrite estimateCurvatures_mirror.
  rewrite (nth_indep _ vzero (embed (rcurvature ps ns R0 k 0)))
    by (rewrite length_map, length_seq; exact Hf).
  rewrite (map_nth (fun f => embed (rcurvature ps ns R0 k f)) (seq 0 (length ps)) 0%nat f).
  rewrite seq_nth by assumption. reflexivity.
Qed.

End Mirror.

(** ** From the loop to the two sums of the formula *)

Lemma radd_assoc (u v w : RVec) : radd (radd u v) w = radd u (radd v w).
Proof. unfold radd, vzip; simpl; f_equal; ring. Qed.

Lemma radd_rzero_r (u : RVec) : radd u rzero = u.
Proof. destruct u; unfold radd, vzip, rzero; simpl; f_equal; ring. Qed.

Lemma radd_rzero_l (u : RVec) : radd rzero u = u.
Proof. destruct u; unfold radd, vzip, rzero; simpl; f_equal; ring. Qed.

Lemma oadd_assoc (a b c : option RVec) : oadd (oadd a b) c = oadd a (oadd b c).
Proof.
  destruct a, b, c; simpl; try reflexivity. f_equal; apply radd_assoc.
Qed.

Lemma oadd_rzero_r (a : option RVec) : oadd a (Some rzero) = a.
Proof. destruct a; simpl; [f_equal; apply radd_rzero_r | reflexivity]. Qed.

Lemma oadd_rzero_l (a : option RVec) : oadd (Some rzero) a = a.
Proof. destruct a; simpl; [f_equal; apply radd_rzero_l | reflexivity]. Qed.

Lemma profile_0_pos (k : DistributionType) : 0 < profile k 0.
Proof.
  pose proof PI_RGT_0.
  destruct k; unfold profile, Rdiv; apply Rmult_lt_0_compat;
    try (apply Rinv_0_lt_compat); lra.
Qed.

Lemma Rsum_nonneg (l : list R) : Forall (fun x => 0 <= x) l -> 0 <= Rsum l.
Proof.
  induction 1 as [ | x l Hx _ IH]; simpl; lra.
Qed.

Lemma Rsum_ge_member (l : list R) (a : R) :
  Forall (fun x => 0 <= x) l -> In a l -> a <= Rsum l.
Proof.
  induction 1 as [ | x l Hx Hl IH]; intros Ha.
  - contradiction.
  - simpl. pose proof (Rsum_nonneg l Hl). destruct Ha as [-> | Ha]; [lra | ].
    specialize (IH Ha). lra.
Qed.

Section Sums.

Variables (ps ns : list RVec) (R0 : R) (k : DistributionType).
Hypothesis R0_pos : 0 < R0.

(** With [R > 0], [d < R] and [d / R < 1] are the same test, and the two
    orientations of the difference have the same norm. *)
Lemma rweight_w_ (f g : nat) :
  rweight R0 k (rnorm (rsub (pos ps g) (pos ps f))) = w_ ps R0 k f g.
Proof.
  unfold rweight, w_, weight. rewrite (rnorm_rsub_sym (pos ps f) (pos ps g)).
  set (d := rnorm (rsub (pos ps g) (pos ps f))).
  assert (Hd : d = d / R0 * R0) by (field; lra).
  destruct (Rlt_dec d R0) as [H | H], (Rlt_dec (d / R0) 1) as [H' | H'];
    try reflexivity; exfalso; nra.
Qed.

Lemma w_self (f : nat) : w_ ps R0 k f f = profile k 0.
Proof.
  unfold w_, weight. rewrite rsub_self, rnorm_rzero.
  replace (0 / R0) with 0 by (unfold Rdiv; ring).
  destruct (Rlt_dec 0 1); [reflexivity | lra].
Qed.

Lemma fold_rstep_sums (f : nat) (l : list nat) (o : option RVec) (D : R) :
  fold_left (rstep ps ns R0 k f) l (o, D)
  = (oadd o (osum (map (fun g => contribution (w_ ps R0 k f g)
                                   (rsub (pos ps g) (pos ps f)) (nrm ns g))
                       (filter (fun g => negb (Nat.eqb g f) && Rltb 0 (w_ ps R0 k f g)) l))),
     D + Rsum (map (w_ ps R0 k f) (filter (fun g => Rltb 0 (w_ ps R0 k f g)) l))).
Proof.
  revert o D. induction l as [ | g l IH]; intros o D.
  - simpl. rewrite oadd_rzero_r. f_equal. ring.
  - cbn [fold_left filter]. unfold rstep at 2. rewrite rweight_w_.
    rewrite (Nat.eqb_sym f g).
    destruct (Rltb 0 (w_ ps R0 k f g)), (Nat.eqb g f);
      cbn [negb andb fst snd map]; rewrite IH; unfold osum, Rsum; cbn [fold_right];
      f_equal; try ring.
    apply oadd_assoc.
Qed.

Lemma rsums_formula (f : nat) :
  rsums ps ns R0 k f = (numerator ps ns R0 k f, denominator ps R0 k f).
Proof.
  unfold rsums. rewrite fold_rstep_sums, oadd_rzero_l.
  unfold numerator, denominator, others, inBall. f_equal. ring.
Qed.

Lemma denominator_ge_self (f : nat) :
  (f < length ps)%nat -> profile k 0 <= denominator ps R0 k f.
Proof.
  intros Hf. unfold denominator, inBall.
  rewrite <- (w_self f).
  apply Rsum_ge_member.
  - apply Forall_forall. intros x Hx. apply in_map_iff in Hx.
    destruct Hx as [g [<- Hg]]. apply filter_In in Hg.
    destruct Hg as [_ Hg]. apply Rltb_spec in Hg. lra.
  - apply in_map, filter_In. split.
    + apply in_seq. lia.
    + apply Rltb_true. rewrite w_self. apply profile_0_pos.
Qed.

Lemma rcurvature_formula (f : nat) :
  (f < length ps)%nat -> rcurvature ps ns R0 k f = curvature_formula ps ns R0 k f.
Proof.
  intros Hf. unfold rcurvature, curvature_formula. rewrite rsums_formula.
  destruct (numerator ps ns R0 k f) as [num | ]; [ | reflexivity].
  pose proof (denominator_ge_self f Hf). pose proof (profile_0_pos k).
  destruct (Req_dec_T (denominator ps R0 k f * R0) 0) as [Hz | Hz]; [ | reflexivity].
  exfalso. nra.
Qed.

End Sums.

(** ** Isolated samples, coincident samples, radii that are not positive *)

Lemma rnorm_exact (u : RVec) (d : R) : 0 <= d -> rnorm2 u = d * d -> rnorm u = d.
Proof. intros Hd H. unfold rnorm. rewrite H. apply sqrt_square; assumption. Qed.

Lemma filter_none {A : Type} (c : A -> bool) (l : list A) :
  (forall x, In x l -> c x = false) -> filter c l = [].
Proof.
  induction l as [ | x l IH]; intros H; [reflexivity | ].
  simpl. rewrite (H x) by (left; reflexivity). apply IH.
  intros y Hy. apply H. right; assumption.
Qed.

Lemma seq_split_at (n f : nat) :
  (f < n)%nat -> seq 0 n = seq 0 f ++ f :: seq (S f) (n - S f).
Proof.
  intros Hf. replace n with (f + S (n - S f))%nat at 1 by lia.
  rewrite seq_app. reflexivity.
Qed.

Lemma osum_None (l : list (option RVec)) : In None l -> osum l = None.
Proof.
  induction l as [ | a l IH]; intros H; [contradiction | ].
  unfold osum in *. cbn [fold_right]. destruct H as [-> | H]; [reflexivity | ].
  rewrite (IH H). destruct a; reflexivity.
Qed.

Lemma contribution_coincident (w : R) (v n : RVec) : rnorm v = 0 -> contribution w v n = None.
Proof.
  intros Hv. unfold contribution.
  destruct (Req_dec_T (rnorm2 n) 0); [reflexivity | ].
  destruct (Req_dec_T (rnorm v) 0); [reflexivity | contradiction].
Qed.

Lemma map_const_seq {A : Type} (a : A) (s n : nat) :
  map (fun _ => a) (seq s n) = repeat a n.
Proof. revert s. induction n as [ | n IH]; intros s; simpl; [ | rewrite IH]; reflexivity. Qed.

Section Degenerate.

Variables (ps ns : list RVec) (R0 : R) (k : DistributionType).

Let P := map vfin ps.
Let N := map vfin ns.

(** Every other sample out of the ball: only the sample's own weight is
    summed, and the curvature is the zero vector. *)
Lemma isolated_sums (f : nat) :
  0 < R0 -> (f < length ps)%nat ->
  (forall g, (g < length ps)%nat -> g <> f -> R0 <= rnorm (rsub (pos ps f) (pos ps g))) ->
  rsums ps ns R0 k f = (Some rzero, profile k 0).
Proof.
  intros HR Hf Hfar. rewrite rsums_formula by assumption.
  assert (Hw : forall g, (g < length ps)%nat -> g <> f -> w_ ps R0 k f g = 0).
  { intros g Hg Hne. unfold w_, weight.
    destruct (Rlt_dec (rnorm (rsub (pos ps f) (pos ps g)) / R0) 1) as [H | H];
      [ | reflexivity].
    exfalso. specialize (Hfar g Hg Hne).
    assert (E : rnorm (rsub (pos ps f) (pos ps g))
                = rnorm (rsub (pos ps f) (pos ps g)) / R0 * R0) by (field; lra).
    nra. }
  unfold numerator, denominator, others, inBall. f_equal.
  - rewrite filter_none; [reflexivity | ].
    intros g Hg. apply in_seq in Hg.
    destruct (Nat.eqb_spec g f) as [-> | Hne]; [reflexivity | ].
    rewrite Hw by (assumption || lia). rewrite Rltb_false by lra. reflexivity.
  - rewrite (seq_split_at (length ps) f Hf), filter_app. cbn [filter].
    rewrite (filter_none _ (seq 0 f)), (filter_none _ (seq (S f) _)).
    + rewrite w_self by assumption. rewrite Rltb_true by apply profile_0_pos.
      simpl. rewrite w_self by assumption. ring.
    + intros g Hg. apply in_seq in Hg.
      rewrite Hw by lia. apply Rltb_false. lra.
    + intros g Hg. apply in_seq in Hg.
      rewrite Hw by lia. apply Rltb_false. lra.
Qed.

Lemma isolated_curvature (f : nat) :
  0 < R0 -> (f < length ps)%nat ->
  (forall g, (g < length ps)%nat -> g <> f -> R0 <= rnorm (rsub (pos ps f) (pos ps g))) ->
  curvatureOf P N (Fin R0) k f = vzero.
Proof.
  intros HR Hf Hfar. unfold P, N. rewrite curvatureOf_mirror.
  unfold rcurvature. rewrite isolated_sums by assumption.
  pose proof (profile_0_pos k).
  destruct (Req_dec_T (profile k 0 * R0) 0) as [Hz | Hz]; [exfalso; nra | ].
  unfold embed, vfin, rdivs, ropp, rzero, vzero, vmap; cbn [cx cy cz].
  f_equal; f_equal; unfold Rdiv; ring.
Qed.

(** A second sample at the very place of [f]: its weight is positive, the
    norm the term is divided by is zero, and the numerator is lost. *)
Lemma coincident_numerator (f g : nat) :
  0 < R0 -> (g < length ps)%nat -> g <> f -> pos ps g = pos ps f ->
  numerator ps ns R0 k f = None.
Proof.
  intros HR Hg Hne Heq. unfold numerator. apply osum_None.
  apply in_map_iff. exists g. split.
  - apply contribution_coincident. rewrite Heq, rsub_self. apply rnorm_rzero.
  - unfold others. apply filter_In. split; [apply in_seq; lia | ].
    apply andb_true_intro. split.
    + apply negb_true_iff, Nat.eqb_neq. assumption.
    + apply Rltb_true. unfold w_. rewrite Heq. fold (w_ ps R0 k f f).
      rewrite w_self by assumption. apply profile_0_pos.
Qed.

Lemma coincident_curvature (f g : nat) :
  0 < R0 -> (f < length ps)%nat -> (g < length ps)%nat -> g <> f ->
  pos ps g = pos ps f ->
  curvatureOf P N (Fin R0) k f = vNaN.
Proof.
  intros HR Hf Hg Hne Heq. unfold P, N. rewrite curvatureOf_mirror.
  rewrite rcurvature_formula by assumption.
  unfold curvature_formula. rewrite (coincident_numerator f g) by assumption.
  reflexivity.
Qed.

(** With a radius that is not positive no distance is below it. *)
Lemma nonpositive_radius_weights (c : RVec) :
  R0 <= 0 ->
  RadialDistance_call (RadialDistance_new (vfin c) (Fin R0) k) P
  = repeat (Fin 0, Fin 0) (length ps).
Proof.
  intros HR. unfold P, RadialDistance_call. rewrite map_map.
  induction ps as [ | b l IH]; [reflexivity | ].
  cbn [map length repeat]. rewrite IH. f_equal.
  rewrite center_new, radius_new, vsub_vfin, norm_vfin.
  unfold dlt. rewrite Rltb_false; [reflexivity | ].
  pose proof (rnorm_nonneg (rsub b c)). lra.
Qed.

Lemma nonpositive_radius_sums (f : nat) :
  R0 <= 0 -> rsums ps ns R0 k f = (Some rzero, 0).
Proof.
  intros HR. unfold rsums.
  destruct (fold_rstep_inv ps ns R0 k f (seq 0 (length ps)) (Some rzero, 0))
    as [E | [H _]]; [simpl; lra | exact E | lra].
Qed.

Lemma nonpositive_radius_curvature (f : nat) :
  R0 <= 0 -> curvatureOf P N (Fin R0) k f = vNaN.
Proof.
  intros HR. unfold P, N. rewrite curvatureOf_mirror.
  unfold rcurvature. rewrite nonpositive_radius_sums by assumption.
  destruct (Req_dec_T (0 * R0) 0) as [Hz | Hz]; [reflexivity | ].
  exfalso. apply Hz. ring.
Qed.

End Degenerate.

Lemma estimateCurvatures_nth_any (positions : list RealPoint) (normals : list RealVector)
    (cRadius : double) (cDistribType : DistributionType) (f : nat) (d : RealVector) :
  (f < length positions)%nat ->
  nth f (estimateCurvatures positions normals cRadius cDistribType) d
  = curvatureOf positions normals cRadius cDistribType f.
Proof.
  intros Hf. unfold estimateCurvatures, nbElements.
  rewrite (nth_indep _ d (curvatureOf positions normals cRadius cDistribType 0))
    by (rewrite length_map, length_seq; exact Hf).
  rewrite (map_nth (curvatureOf positions normals cRadius cDistribType)
             (seq 0 (length positions)) 0%nat f).
  rewrite seq_nth by assumption. reflexivity.
Qed.

Lemma length_map_vfin (l : list RVec) : length (map vfin l) = length l.
Proof. apply length_map. Qed.

Lemma estimateCurvatures_unfold (ps : list RVec) (normals : list RealVector)
    (cRadius : double) (cDistribType : DistributionType) :
  estimateCurvatures (map vfin ps) normals cRadius cDistribType
  = map (curvatureOf (map vfin ps) normals cRadius cDistribType) (seq 0 (length ps)).
Proof.
  unfold estimateCurvatures, nbElements. f_equal. f_equal. apply length_map.
Qed.

Lemma map_seq_1 {A : Type} (h : nat -> A) : map h (seq 0 1) = [h 0%nat].
Proof. reflexivity. Qed.

Lemma map_seq_2 {A : Type} (h : nat -> A) : map h (seq 0 2) = [h 0%nat; h 1%nat].
Proof. reflexivity. Qed.

Lemma map_seq_5 {A : Type} (h : nat -> A) :
  map h (seq 0 5) = [h 0%nat; h 1%nat; h 2%nat; h 3%nat; h 4%nat].
Proof. reflexivity. Qed.

(** A sample whose denominator is zero: the final division is [0/0]. *)
Lemma zero_denominator_curvature (ps ns : list RVec) (R0 : R) (k : DistributionType)
    (f : nat) :
  snd (sums (map vfin ps) (map vfin ns) (Fin R0) k f) = Fin 0 ->
  curvatureOf (map vfin ps) (map vfin ns) (Fin R0) k f = vNaN.
Proof.
  rewrite sums_mirror. cbn [snd]. intros H. injection H as H.
  rewrite curvatureOf_mirror. unfold rcurvature.
  rewrite (rsums_degenerate ps ns R0 k f) by (rewrite H; ring).
  destruct (Req_dec_T (0 * R0) 0) as [_ | Hz]; [reflexivity | ].
  exfalso. apply Hz. ring.
Qed.

(** The weight and the divisor of a sample that lies at the centre. *)
Lemma coincident_guard (ps : list RVec) (R0 : R) (k : DistributionType) (f g : nat) :
  0 < R0 -> (g < length ps)%nat -> nth g ps rzero = nth f ps rzero ->
  fst (nth g (RadialDistance_call
                (RadialDistance_new (nth f (map vfin ps) vzero) (Fin R0) k) (map vfin ps))
           (Fin 0, Fin 0)) = Fin (profile k 0) /\
  norm (vsub (nth g (map vfin ps) vzero) (nth f (map vfin ps) vzero)) = Fin 0.
Proof.
  intros HR Hg Heq.
  rewrite !nth_map_vfin, vsub_vfin, norm_vfin, call_nth by assumption.
  rewrite Heq, rsub_self, rnorm_rzero. cbv zeta.
  destruct (Rlt_dec 0 R0) as [_ | H]; [ | contradiction].
  replace (0 / R0) with 0 by (unfold Rdiv; ring). split; reflexivity.
Qed.

(** The switch on the method: three methods feed the estimator, the other
    two return the empty vector, the only early return of the function. *)
Lemma computeLocalCurvature_dispatch (surface : SurfaceData) (cRadius : double)
    (cDistribType : DistributionType) :
  computeLocalCurvature surface cRadius cDistribType TrivialNormalFaceCentroid
  = estimateCurvatures (faceCentroid surface) (faceNormal surface) cRadius cDistribType /\
  computeLocalCurvature surface cRadius cDistribType DualNormalFaceCentroid
  = estimateCurvatures (position surface) (vertexNormal surface) cRadius cDistribType /\
  computeLocalCurvature surface cRadius cDistribType CorrectedNormalFaceCentroid
  = estimateCurvatures (faceCentroid surface) (getIINormalVectors surface)
      cRadius cDistribType /\
  computeLocalCurvature surface cRadius cDistribType ProbabilisticOfTrivials = [] /\
  computeLocalCurvature surface cRadius cDistribType VertexInterpolation = [].
Proof. repeat split. Qed.

(** ** The estimator commutes with rigid motions *)

Section RigidMotion.

Variable Q : Mat3.
Hypothesis Q_orth : orthogonal Q.
Variable t : RVec.

Lemma rdot_mapply (u v : RVec) : rdot (mapply Q u) (mapply Q v) = rdot u v.
Proof.
  destruct Q as [[a1 a2 a3] [b1 b2 b3] [c1 c2 c3]], u as [u1 u2 u3], v as [v1 v2 v3].
  destruct Q_orth as (H1 & H2 & H3 & H4 & H5 & H6).
  unfold col, rdot in *; cbn [row1 row2 row3 cx cy cz mapply rdot] in *.
  unfold rdot; cbn [cx cy cz].
  transitivity (u1 * v1 * (a1 * a1 + b1 * b1 + c1 * c1)
                + u2 * v2 * (a2 * a2 + b2 * b2 + c2 * c2)
                + u3 * v3 * (a3 * a3 + b3 * b3 + c3 * c3)
                + (u1 * v2 + u2 * v1) * (a1 * a2 + b1 * b2 + c1 * c2)
                + (u1 * v3 + u3 * v1) * (a1 * a3 + b1 * b3 + c1 * c3)
                + (u2 * v3 + u3 * v2) * (a2 * a3 + b2 * b3 + c2 * c3)).
  - ring.
  - rewrite H1, H2, H3, H4, H5, H6. ring.
Qed.

Lemma rnorm2_mapply (u : RVec) : rnorm2 (mapply Q u) = rnorm2 u.
Proof. apply rdot_mapply. Qed.

Lemma rnorm_mapply (u : RVec) : rnorm (mapply Q u) = rnorm u.
Proof. unfold rnorm. rewrite rnorm2_mapply. reflexivity. Qed.

Lemma mapply_rzero : mapply Q rzero = rzero.
Proof. unfold mapply, rdot, rzero; cbn [cx cy cz]. f_equal; ring. Qed.

Lemma mapply_radd (u v : RVec) : mapply Q (radd u v) = radd (mapply Q u) (mapply Q v).
Proof. unfold mapply, rdot, radd, vzip; cbn [cx cy cz]. f_equal; ring. Qed.

Lemma rsub_rigid (a b : RVec) : rsub (rigid Q t a) (rigid Q t b) = mapply Q (rsub a b).
Proof. unfold rigid, mapply, rdot, radd, rsub, vzip; cbn [cx cy cz]. f_equal; ring. Qed.

Lemma rproj_mapply (v n : RVec) : rproj (mapply Q v) (mapply Q n) = mapply Q (rproj v n).
Proof.
  unfold rproj. rewrite rdot_mapply, rnorm2_mapply.
  set (s := rdot v n / rnorm2 n).
  unfold mapply, rdot, vzip; cbn [cx cy cz]. f_equal; ring.
Qed.

Lemma scaled_mapply (w c : R) (p : RVec) :
  rdivs (rscale w (mapply Q p)) c = mapply Q (rdivs (rscale w p) c).
Proof.
  unfold rdivs, rscale, mapply, rdot, vmap, Rdiv; cbn [cx cy cz]. f_equal; ring.
Qed.

Lemma negated_mapply (c : R) (p : RVec) :
  rdivs (ropp (mapply Q p)) c = mapply Q (rdivs (ropp p) c).
Proof.
  unfold rdivs, ropp, mapply, rdot, vmap, Rdiv; cbn [cx cy cz]. f_equal; ring.
Qed.

Lemma contribution_mapply (w : R) (v n : RVec) :
  contribution w (mapply Q v) (mapply Q n) = option_map (mapply Q) (contribution w v n).
Proof.
  unfold contribution. rewrite rnorm2_mapply, rnorm_mapply.
  destruct (Req_dec_T (rnorm2 n) 0); [reflexivity | ].
  destruct (Req_dec_T (rnorm v) 0); [reflexivity | ].
  cbn [option_map]. rewrite rproj_mapply, scaled_mapply. reflexivity.
Qed.

Lemma oadd_mapply (a b : option RVec) :
  oadd (option_map (mapply Q) a) (option_map (mapply Q) b)
  = option_map (mapply Q) (oadd a b).
Proof.
  destruct a, b; cbn [option_map oadd]; try reflexivity. rewrite mapply_radd. reflexivity.
Qed.

Variables (ps ns : list RVec) (R0 : R) (k : DistributionType).

Let ps' := map (rigid Q t) ps.
Let ns' := map (mapply Q) ns.

Lemma pos_moved (g : nat) : (g < length ps)%nat -> pos ps' g = rigid Q t (pos ps g).
Proof.
  intros Hg. unfold pos, ps'.
  rewrite (nth_indep _ rzero (rigid Q t rzero)) by (rewrite length_map; exact Hg).
  apply map_nth.
Qed.

Lemma nrm_moved (g : nat) : nrm ns' g = mapply Q (nrm ns g).
Proof.
  unfold nrm, ns'. rewrite <- mapply_rzero at 1. apply map_nth.
Qed.

Lemma rstep_moved (f g : nat) (o : option RVec) (D : R) :
  (f < length ps)%nat -> (g < length ps)%nat ->
  rstep ps' ns' R0 k f (option_map (mapply Q) o, D) g
  = (option_map (mapply Q) (fst (rstep ps ns R0 k f (o, D) g)),
     snd (rstep ps ns R0 k f (o, D) g)).
Proof.
  intros Hf Hg. unfold rstep.
  rewrite !pos_moved, nrm_moved, rsub_rigid, rnorm_mapply by assumption.
  destruct (Rltb 0 (rweight R0 k (rnorm (rsub (pos ps g) (pos ps f))))); [ | reflexivity].
  cbn [fst snd]. destruct (negb (Nat.eqb f g)); [ | reflexivity].
  rewrite contribution_mapply, oadd_mapply. reflexivity.
Qed.

Lemma fold_rstep_moved (f : nat) (l : list nat) (o : option RVec) (D : R) :
  (f < length ps)%nat -> Forall (fun g => (g < length ps)%nat) l ->
  fold_left (rstep ps' ns' R0 k f) l (option_map (mapply Q) o, D)
  = (option_map (mapply Q) (fst (fold_left (rstep ps ns R0 k f) l (o, D))),
     snd (fold_left (rstep ps ns R0 k f) l (o, D))).
Proof.
  intros Hf. revert o D. induction l as [ | g l IH]; intros o D Hl.
  - reflexivity.
  - inversion Hl as [ | ? ? Hg Hl']; subst.
    cbn [fold_left]. rewrite rstep_moved by assumption.
    destruct (rstep ps ns R0 k f (o, D) g) as [o' D']. cbn [fst snd].
    apply IH; assumption.
Qed.

Lemma rcurvature_moved (f : nat) :
  (f < length ps)%nat ->
  rcurvature ps' ns' R0 k f = option_map (mapply Q) (rcurvature ps ns R0 k f).
Proof.
  intros Hf. unfold rcurvature, rsums.
  replace (length ps') with (length ps) by (unfold ps'; symmetry; apply length_map).
  rewrite <- mapply_rzero at 1.
  change (Some (mapply Q rzero)) with (option_map (mapply Q) (Some rzero)).
  rewrite fold_rstep_moved by (assumption || apply seq_bound).
  destruct (fold_left (rstep ps ns R0 k f) (seq 0 (length ps)) (Some rzero, 0))
    as [[top | ] bottom]; cbn [fst snd option_map]; [ | reflexivity].
  destruct (Req_dec_T (bottom * R0) 0); [reflexivity | ].
  cbn [option_map]. rewrite negated_mapply. reflexivity.
Qed.

Lemma dapply_embed (o : option RVec) :
  dapply Q (embed o) = embed (option_map (mapply Q) o).
Proof.
  destruct o as [u | ]; [reflexivity | ].
  unfold dapply, embed, vNaN, dot, vfin, vmap; cbn [cx cy cz option_map].
  reflexivity.
Qed.

End RigidMotion.

(** ** A vector overwritten in place, index after index *)

Lemma length_assign (l : list double) (i : nat) (x : double) :
  length (assign l i x) = length l.
Proof.
  revert i. induction l as [ | h t IH]; intros [ | j]; simpl; try reflexivity.
  rewrite IH. reflexivity.
Qed.

Lemma nth_assign_same (l : list double) (i : nat) (x d : double) :
  (i < length l)%nat -> nth i (assign l i x) d = x.
Proof.
  revert i. induction l as [ | h t IH]; intros [ | j] Hi; simpl in *; try lia.
  - reflexivity.
  - apply IH. lia.
Qed.

Lemma nth_assign_other (l : list double) (i j : nat) (x d : double) :
  j <> i -> nth j (assign l i x) d = nth j l d.
Proof.
  revert i j. induction l as [ | h t IH]; intros [ | i] [ | j] Hne; simpl;
    try reflexivity; try lia.
  apply IH. lia.
Qed.

Lemma fold_left_filter_map {A : Type} (c : A -> bool) (h : A -> double) (l : list A)
    (acc : double) :
  fold_left (fun s x => if c x then (s + h x)%dbl else s) l acc
  = fold_left dadd (map h (filter c l)) acc.
Proof.
  revert acc. induction l as [ | x l IH]; intros acc; [reflexivity | ].
  cbn [fold_left filter]. destruct (c x); cbn [map fold_left]; apply IH.
Qed.

Section InPlace.

(** The value written at index [i], computed from the vector as it stands. *)
Variable upd : list double -> nat -> double.

Lemma sweep_S (m : nat) (l : list double) :
  sweep upd (S m) l = assign (sweep upd m l) m (upd (sweep upd m l) m).
Proof. unfold sweep. rewrite seq_S, fold_left_app. reflexivity. Qed.

Lemma length_sweep (m : nat) (l : list double) : length (sweep upd m l) = length l.
Proof.
  induction m as [ | m IH]; [reflexivity | ].
  rewrite sweep_S, length_assign. exact IH.
Qed.

Lemma sweep_above (m j : nat) (l : list double) (d : double) :
  (m <= j)%nat -> nth j (sweep upd m l) d = nth j l d.
Proof.
  induction m as [ | m IH]; intros Hj; [reflexivity | ].
  rewrite sweep_S, nth_assign_other by lia. apply IH. lia.
Qed.

Lemma sweep_below (m j : nat) (l : list double) (d : double) :
  (j < m)%nat -> nth j (sweep upd m l) d = nth j (sweep upd (S j) l) d.
Proof.
  induction m as [ | m IH]; intros Hj; [lia | ].
  destruct (Nat.eq_dec j m) as [-> | Hne]; [reflexivity | ].
  rewrite sweep_S, nth_assign_other by assumption. apply IH. lia.
Qed.

Lemma sweep_seen (m i : nat) (l : list double) :
  (i <= m)%nat -> (i <= length l)%nat -> seen (sweep upd m l) l i = sweep upd i l.
Proof.
  intros Him Hil. unfold seen.
  apply (nth_ext _ _ NaN NaN).
  - rewrite length_app, length_firstn, length_skipn, !length_sweep. lia.
  - intros j _.
    destruct (Nat.lt_ge_cases j i) as [Hj | Hj].
    + rewrite app_nth1 by (rewrite length_firstn, length_sweep; lia).
      rewrite nth_firstn. destruct (Nat.ltb_spec j i); [ | lia].
      rewrite (sweep_below m j) by lia. rewrite (sweep_below i j) by lia. reflexivity.
    + rewrite app_nth2 by (rewrite length_firstn, length_sweep; lia).
      rewrite length_firstn, length_sweep, nth_skipn.
      replace (i + (j - Nat.min i (length l)))%nat with j by lia.
      rewrite sweep_above by assumption. reflexivity.
Qed.

Lemma sweep_written (m i : nat) (l : list double) (d : double) :
  (i < m)%nat -> (i < length l)%nat ->
  nth i (sweep upd m l) d = upd (seen (sweep upd m l) l i) i.
Proof.
  intros Him Hil. rewrite sweep_seen by lia.
  rewrite (sweep_below m i) by assumption.
  rewrite sweep_S. apply nth_assign_same. rewrite length_sweep. assumption.
Qed.

Lemma seen_own (m i : nat) (l : list double) (d : double) :
  (i <= m)%nat -> (i <= length l)%nat -> nth i (seen (sweep upd m l) l i) d = nth i l d.
Proof.
  intros Him Hil. rewrite sweep_seen by assumption. apply sweep_above. lia.
Qed.

End InPlace.

Lemma correctWith_sweep (n : nat) (sumOf : list double -> nat -> double)
    (lcsNorm : list double) :
  correctWith n sumOf lcsNorm
  = sweep (fun l i => resign (nth i l NaN) (sumOf l i)) n lcsNorm.
Proof. reflexivity. Qed.

Lemma correctWith_nth (n : nat) (sumOf : list double -> nat -> double)
    (lcsNorm : list double) (i : nat) :
  (i < n)%nat -> (i < length lcsNorm)%nat ->
  nth i (correctWith n sumOf lcsNorm) NaN
  = resign (nth i lcsNorm NaN) (sumOf (seen (correctWith n sumOf lcsNorm) lcsNorm i) i).
Proof.
  intros Hin Hil. rewrite correctWith_sweep.
  rewrite (sweep_written _ n i lcsNorm NaN) by assumption.
  rewrite seen_own by lia. reflexivity.
Qed.

Lemma Method_eq_dec (a b : Method) : {a = b} + {a <> b}.
Proof. decide equality. Qed.

(** ** Evaluation on sample data *)

Ltac decide_reals :=
  repeat match goal with
    | |- context [Rabs ?a] =>
        first [rewrite (Rabs_pos_eq a) by lra | rewrite (Rabs_left a) by lra]
    | |- context [Rltb ?a ?b] =>
        first [rewrite (Rltb_true a b) by lra | rewrite (Rltb_false a b) by lra]
    | |- context [Reqb ?a ?b] =>
        first [rewrite (Reqb_true a b) by lra | rewrite (Reqb_false a b) by lra]
    end.

Lemma fold_left_cons {A B : Type} (h : A -> B -> A) (x : B) (l : list B) (a : A) :
  fold_left h (x :: l) a = fold_left h l (h a x).
Proof. reflexivity. Qed.

Lemma resign_neg (x s : R) : s < 0 -> resign (Fin x) (Fin s) = Fin (- Rabs x).
Proof.
  intros H. unfold resign, dlt. rewrite Rltb_true by assumption.
  simpl. f_equal. ring.
Qed.

Lemma resign_nonneg (x s : R) : 0 <= s -> resign (Fin x) (Fin s) = Fin (Rabs x).
Proof.
  intros H. unfold resign, dlt. rewrite Rltb_false by lra.
  simpl. f_equal. ring.
Qed.

Lemma line_vertexSum (a b c : double) :
  vertexSum lineRatio linePosition 3 [a; b; c] 0 = (Fin 0 + b)%dbl /\
  vertexSum lineRatio linePosition 3 [a; b; c] 1 = (Fin 0 + a + c)%dbl /\
  vertexSum lineRatio linePosition 3 [a; b; c] 2 = (Fin 0 + b)%dbl.
Proof.
  unfold vertexSum, lineRatio, linePosition, dgt, dlt.
  cbn [seq fold_left cx Nat.eqb negb andb nth].
  decide_reals. cbn [andb negb]. decide_reals. auto.
Qed.

Lemma line_weightedVertexSum (faces : double -> nat -> list (nat * double))
    (a b c : double) :
  weightedVertexSum lineRatio linePosition 3 [a; b; c] 0 = (Fin 0 + Fin 1 * b)%dbl /\
  weightedVertexSum lineRatio linePosition 3 [a; b; c] 1
  = (Fin 0 + Fin 1 * a + Fin 1 * c)%dbl /\
  weightedVertexSum lineRatio linePosition 3 [a; b; c] 2 = (Fin 0 + Fin 1 * b)%dbl.
Proof.
  unfold weightedVertexSum, lineRatio, linePosition, dgt, dlt.
  cbn [seq fold_left cx Nat.eqb negb andb nth].
  decide_reals. cbn [andb negb]. decide_reals. auto.
Qed.

Lemma quarter_faceSum (a b c : double) :
  faceSum quarterFaces [a; b; c] 0 = (Fin 0 + b + c)%dbl /\
  faceSum quarterFaces [a; b; c] 1 = Fin 0 /\
  faceSum quarterFaces [a; b; c] 2 = Fin 0.
Proof.
  unfold faceSum, quarterFaces, dgt, dlt.
  cbn [fold_left fst snd nth]. decide_reals. auto.
Qed.

Lemma quarter_weightedFaceSum (a b c : double) :
  weightedFaceSum quarterFaces [a; b; c] 0 = (Fin 0 + Fin (1 / 4) * b + Fin 1 * c)%dbl /\
  weightedFaceSum quarterFaces [a; b; c] 1 = Fin 0 /\
  weightedFaceSum quarterFaces [a; b; c] 2 = Fin 0.
Proof.
  unfold weightedFaceSum, quarterFaces, dgt, dlt.
  cbn [fold_left fst snd nth Nat.eqb negb andb]. decide_reals. auto.
Qed.

Lemma naiveSigned_vfin (p : RealPoint) (n c : RVec) :
  naiveSigned (mkVarifold p (vfin n) (vfin c))
  = Fin (if Rlt_dec 0 (rdot n c) then rnorm c else - rnorm c).
Proof.
  unfold naiveSigned; cbn [planeNormal curvature].
  rewrite dot_vfin, norm_vfin. unfold dgt, dlt, Rltb.
  destruct (Rlt_dec 0 (rdot n c)); reflexivity.
Qed.

Lemma naive_along (p : RealPoint) (x : R) :
  naiveSigned (mkVarifold p (vfin (V3 0 0 1)) (vfin (V3 0 0 x))) = Fin x.
Proof.
  rewrite naiveSigned_vfin. unfold rdot; cbn [cx cy cz].
  destruct (Rlt_dec 0 (0 * 0 + 0 * 0 + 1 * x)) as [H | H]; f_equal.
  - apply rnorm_exact; [lra | unfold rnorm2, rdot; cbn [cx cy cz]; ring].
  - rewrite (rnorm_exact (V3 0 0 x) (- x));
      [ring | lra | unfold rnorm2, rdot; cbn [cx cy cz]; ring].
Qed.

Lemma line_naive : lcsNorm_init lineVarifolds = [Fin (-1); Fin 5; Fin (1 / 2)].
Proof. unfold lcsNorm_init, lineVarifolds. cbn [map]. rewrite !naive_along. reflexivity. Qed.

Lemma face_naive : lcsNorm_init faceVarifolds = [Fin 1; Fin 5; Fin (-2)].
Proof. unfold lcsNorm_init, faceVarifolds. cbn [map]. rewrite !naive_along. reflexivity. Qed.

(** ** The five coplanar samples *)

Lemma sqrt2_facts : 0 < sqrt 2 /\ sqrt 2 * sqrt 2 = 2 /\ sqrt 2 < 3 / 2.
Proof.
  assert (H : sqrt 2 * sqrt 2 = 2) by (apply sqrt_sqrt; lra).
  assert (H0 : 0 < sqrt 2) by (apply sqrt_lt_R0; lra).
  repeat split; try assumption. nra.
Qed.

Lemma cross_dist (f g : nat) :
  (f < 5)%nat -> (g < 5)%nat ->
  rnorm (rsub (pos cross g) (pos cross f)) = crossDist f g.
Proof.
  intros Hf Hg. destruct sqrt2_facts as (Hs0 & Hs & _).
  apply rnorm_exact.
  - do 5 (destruct f as [ | f]; [do 5 (destruct g as [ | g]; [unfold crossDist; simpl; lra | ]); lia | ]).
    lia.
  - do 5 (destruct f as [ | f];
          [do 5 (destruct g as [ | g];
                 [unfold crossDist, rnorm2, rdot, rsub, pos, cross, vzip;
                  cbn [nth cx cy cz Nat.eqb Nat.add orb]; try rewrite Hs; ring | ]); lia | ]).
    lia.
Qed.

Lemma upward_norm (g : nat) : (g < 5)%nat -> rnorm2 (nrm upward g) = 1.
Proof.
  intros Hg.
  do 5 (destruct g as [ | g]; [unfold rnorm2, rdot, nrm, upward; cbn [nth cx cy cz]; ring | ]).
  lia.
Qed.

Lemma rstep_flat_far (ps ns : list RVec) (R0 : R) (f g : nat) (acc : option RVec * R) :
  R0 <= rnorm (rsub (pos ps g) (pos ps f)) -> rstep ps ns R0 FlatDisc f acc g = acc.
Proof.
  intros H. unfold rstep, rweight.
  destruct (Rlt_dec (rnorm (rsub (pos ps g) (pos ps f))) R0); [lra | ].
  rewrite Rltb_false by lra. reflexivity.
Qed.

Lemma rstep_flat_near (ps ns : list RVec) (R0 : R) (f g : nat) (o : option RVec) (D : R) :
  rnorm (rsub (pos ps g) (pos ps f)) < R0 ->
  rstep ps ns R0 FlatDisc f (o, D) g
  = ((if negb (Nat.eqb f g)
      then oadd o (contribution (3 / (4 * PI)) (rsub (pos ps g) (pos ps f)) (nrm ns g))
      else o),
     D + 3 / (4 * PI)).
Proof.
  intros H. unfold rstep, rweight.
  destruct (Rlt_dec (rnorm (rsub (pos ps g) (pos ps f))) R0); [ | contradiction].
  pose proof (profile_0_pos FlatDisc) as Hw. unfold profile in *.
  rewrite Rltb_true by assumption. reflexivity.
Qed.

Lemma contribution_defined (w : R) (v n : RVec) :
  rnorm2 n <> 0 -> rnorm v <> 0 ->
  contribution w v n = Some (rdivs (rscale w (rproj v n)) (rnorm v)).
Proof.
  intros Hn Hv. unfold contribution.
  destruct (Req_dec_T (rnorm2 n) 0); [contradiction | ].
  destruct (Req_dec_T (rnorm v) 0); [contradiction | reflexivity].
Qed.

Ltac cross_step :=
  rewrite fold_left_cons;
  first
    [ rewrite rstep_flat_far
        by (rewrite cross_dist by lia; unfold crossDist; cbn [Nat.eqb Nat.add orb];
            destruct sqrt2_facts as (? & ? & ?); lra)
    | rewrite rstep_flat_near
        by (rewrite cross_dist by lia; unfold crossDist; cbn [Nat.eqb Nat.add orb];
            destruct sqrt2_facts as (? & ? & ?); lra);
      cbn [Nat.eqb negb];
      try (rewrite contribution_defined
             by (first [ rewrite upward_norm by lia; lra
                       | rewrite cross_dist by lia; unfold crossDist;
                         cbn [Nat.eqb Nat.add orb];
                         destruct sqrt2_facts as (? & ? & ?); lra ]);
           rewrite cross_dist by lia; unfold crossDist at 1; cbn [Nat.eqb Nat.add orb oadd]) ].


Lemma sqrt2_inv : / sqrt 2 = sqrt 2 / 2.
Proof.
  destruct sqrt2_facts as (Hs0 & Hs & _).
  apply Rmult_eq_reg_l with (sqrt 2); [ | lra].
  rewrite Rinv_r by lra. lra.
Qed.

Ltac cross_finish :=
  let Hz := fresh "Hz" in
  pose proof PI_RGT_0;
  pose proof (profile_0_pos FlatDisc); unfold profile in *;
  destruct (Req_dec_T _ 0) as [Hz | _];
  [ exfalso; nra
  | f_equal;
    cbv [rdivs ropp radd rscale rproj rsub rdot rnorm2 pos nrm cross upward
         rzero vmap vzip nth cx cy cz];
    unfold Rdiv; rewrite ?sqrt2_inv;
    f_equal; field; lra ].

Ltac cross_eval :=
  unfold rcurvature, rsums; change (length cross) with 5%nat; cbn [seq];
  do 5 cross_step; cbn [fold_left fst snd]; cross_finish.

Lemma cross_rcurvature :
  rcurvature cross upward (3 / 2) FlatDisc 0 = Some (V3 0 0 0) /\
  rcurvature cross upward (3 / 2) FlatDisc 1 = Some (V3 ((1 + sqrt 2) / 6) 0 0) /\
  rcurvature cross upward (3 / 2) FlatDisc 2 = Some (V3 0 ((1 + sqrt 2) / 6) 0) /\
  rcurvature cross upward (3 / 2) FlatDisc 3 = Some (V3 (- (1 + sqrt 2) / 6) 0 0) /\
  rcurvature cross upward (3 / 2) FlatDisc 4 = Some (V3 0 (- (1 + sqrt 2) / 6) 0).
Proof.
  repeat split; cross_eval.
Qed.

(** * The claims *)

(** ** C1: the curvature formula *)

(** C1.  For every sample [f] and every radius [R > 0] the estimator returns
    [- numerator / (D R)], where the numerator sums
    [w_g proj(position[g] - position[f], normal[g]) / |position[g] - position[f]|]
    over the samples [g <> f] with [w_g > 0], [D] sums [w_g] over every sample
    with [w_g > 0], [f] included, and
    [w_g = weight(|position[f] - position[g]| / R)].  Where the formula
    divides by zero the estimator returns NaN coordinates. *)
Theorem curvature_formula_correct (ps ns : list RVec) (R0 : R) (k : DistributionType)
    (f : nat) :
  0 < R0 -> (f < length ps)%nat ->
  nth f (estimateCurvatures (map vfin ps) (map vfin ns) (Fin R0) k) vzero
  = embed (curvature_formula ps ns R0 k f).
Proof.
  intros HR Hf. rewrite estimateCurvatures_nth by assumption.
  rewrite rcurvature_formula by assumption. reflexivity.
Qed.

Lemma curvature_formula_correct_witness :
  nth 0 (estimateCurvatures (map vfin [V3 0 0 0; V3 1 0 0])
           (map vfin [V3 0 0 1; V3 0 0 1]) (Fin 2) FlatDisc) vzero
  = embed (curvature_formula [V3 0 0 0; V3 1 0 0] [V3 0 0 1; V3 0 0 1] 2 FlatDisc 0).
Proof.
  apply curvature_formula_correct; [lra | simpl; lia].
Defined.

(** ** C2: the closed forms of the three profiles *)

(** C2.  At every normalised distance [t] in [[0,1)] the flat-disc profile
    returns [3/(4 pi)] with derivative [0], the cone [(1-t) pi/12] with
    derivative [-pi/12], the half-sphere [(1-t^2)/(2 pi)] with derivative
    [-t/pi]. *)
Theorem kernel_closed_forms (c : RealPoint) (r : double) (t : R) :
  0 <= t < 1 ->
  measureFunction (RadialDistance_new c r FlatDisc) (Fin t) = Fin (3 / (4 * PI)) /\
  measureFunctionDerivate (RadialDistance_new c r FlatDisc) (Fin t) = Fin 0 /\
  measureFunction (RadialDistance_new c r Cone) (Fin t) = Fin ((1 - t) * PI / 12) /\
  measureFunctionDerivate (RadialDistance_new c r Cone) (Fin t) = Fin (- PI / 12) /\
  measureFunction (RadialDistance_new c r HalfSphere) (Fin t)
    = Fin ((1 - t ^ 2) / (2 * PI)) /\
  measureFunctionDerivate (RadialDistance_new c r HalfSphere) (Fin t) = Fin (- t / PI).
Proof.
  intros _. rewrite !measureFunction_Fin, !measureFunctionDerivate_Fin.
  unfold profile, profile'. repeat split. f_equal. f_equal. ring.
Qed.

Lemma kernel_closed_forms_witness :
  measureFunction (RadialDistance_new vzero (Fin 1) Cone) (Fin (1 / 4))
  = Fin ((1 - 1 / 4) * PI / 12).
Proof.
  assert (H : 0 <= 1 / 4 < 1) by lra.
  exact (proj1 (proj2 (proj2 (kernel_closed_forms vzero (Fin 1) (1 / 4) H)))).
Defined.

(** ** C3: the sign correction *)

Lemma vertexSum_neighbours (ratio : RealPoint -> double -> nat -> double)
    (faces : double -> nat -> list (nat * double)) (vpos : nat -> RealPoint) (n : nat)
    (l : list double) (i : nat) :
  vertexSum ratio vpos n l i
  = dsum (map (fun g => nth g l NaN) (neighbours ratio faces vpos n DualNormalFaceCentroid i)).
Proof.
  unfold vertexSum, dsum, neighbours.
  apply (fold_left_filter_map
           (fun f => negb (Nat.eqb f i) && (ratio (vpos i) (Fin 1) f >? Fin 0)%dbl)
           (fun g => nth g l NaN)).
Qed.

Lemma faceSum_neighbours (ratio : RealPoint -> double -> nat -> double)
    (faces : double -> nat -> list (nat * double)) (vpos : nat -> RealPoint) (n : nat)
    (m : Method) (l : list double) (i : nat) :
  m <> DualNormalFaceCentroid ->
  faceSum faces l i = dsum (map (fun g => nth g l NaN) (neighbours ratio faces vpos n m i)).
Proof.
  intros Hm. unfold faceSum, dsum.
  replace (neighbours ratio faces vpos n m i)
    with (map fst (filter (fun e : nat * double => (snd e >? Fin 0)%dbl) (faces (Fin 1) i)))
    by (destruct m; try reflexivity; contradiction).
  rewrite map_map.
  apply (fold_left_filter_map
           (fun e : nat * double => (snd e >? Fin 0)%dbl)
           (fun e : nat * double => nth (fst e) l NaN)).
Qed.

(** C3, as the program has it.  The corrected value of sample [i] is
    [|naiveSigned[i]|] times [-1] when the sum over its neighbours is
    negative and [+1] otherwise, where the sum is the plain, unweighted sum
    of the values the vector holds when the turn of [i] comes: the values
    already corrected for the neighbours below [i], the naive ones for those
    above.  The neighbours are the samples with a positive inclusion ratio:
    in the vertex pass the vertices other than [i]; in a face pass the faces
    listed by the ball query, for a face that is not listed with itself. *)
Theorem sign_correction_in_place (ratio : RealPoint -> double -> nat -> double)
    (faces : double -> nat -> list (nat * double)) (vpos : nat -> RealPoint)
    (m : Method) (varifolds : list Varifold) (i : nat) :
  (i < length varifolds)%nat ->
  (m <> DualNormalFaceCentroid ->
   forall e, In e (faces (Fin 1) i) -> (snd e >? Fin 0)%dbl = true -> fst e <> i) ->
  let n := length varifolds in
  let naive := lcsNorm_init varifolds in
  let final := correctSigns ratio faces vpos n m naive in
  nth i final NaN
  = resign (naiveSigned (nth i varifolds noVarifold))
      (dsum (map (fun g => nth g (seen final naive i) NaN)
                 (neighbours ratio faces vpos n m i))).
Proof.
  intros Hi _ n naive final.
  assert (Hlen : length naive = n) by apply length_map.
  assert (Hnaive : nth i naive NaN = naiveSigned (nth i varifolds noVarifold)).
  { unfold naive, lcsNorm_init.
    rewrite (nth_indep _ NaN (naiveSigned noVarifold)) by (rewrite length_map; exact Hi).
    apply map_nth. }
  rewrite <- Hnaive. unfold final.
  destruct (Method_eq_dec m DualNormalFaceCentroid) as [-> | Hm].
  - unfold correctSigns. rewrite correctWith_nth by (fold n; lia).
    rewrite (vertexSum_neighbours ratio faces). reflexivity.
  - replace (correctSigns ratio faces vpos n m naive)
      with (correctWith n (faceSum faces) naive)
      by (destruct m; try reflexivity; contradiction).
    rewrite correctWith_nth by (fold n; lia).
    rewrite (faceSum_neighbours ratio faces vpos n m) by assumption. reflexivity.
Qed.

Lemma sign_correction_in_place_witness :
  nth 1 (correctSigns noRatio pairFaces linePosition (length pairVarifolds)
           TrivialNormalFaceCentroid (lcsNorm_init pairVarifolds)) NaN
  = resign (naiveSigned (nth 1 pairVarifolds noVarifold))
      (dsum (map (fun g =>
                    nth g (seen (correctSigns noRatio pairFaces linePosition
                                   (length pairVarifolds) TrivialNormalFaceCentroid
                                   (lcsNorm_init pairVarifolds))
                             (lcsNorm_init pairVarifolds) 1) NaN)
                 (neighbours noRatio pairFaces linePosition (length pairVarifolds)
                    TrivialNormalFaceCentroid 1))).
Proof.
  apply (sign_correction_in_place noRatio pairFaces linePosition
           TrivialNormalFaceCentroid pairVarifolds 1).
  - simpl; lia.
  - intros _ e He _. simpl in He. destruct He as [<- | []]. simpl. lia.
Defined.

(** The program and the description on two inputs. *)
Lemma sign_correction_values :
  (lcsNorm_init lineVarifolds = [Fin (-1); Fin 5; Fin (1 / 2)] /\
   correctSigns lineRatio quarterFaces linePosition 3 DualNormalFaceCentroid
     (lcsNorm_init lineVarifolds) = [Fin 1; Fin 5; Fin (1 / 2)] /\
   claimedSigns lineRatio quarterFaces linePosition 3 DualNormalFaceCentroid
     (lcsNorm_init lineVarifolds) = [Fin 1; Fin (-5); Fin (1 / 2)]) /\
  (lcsNorm_init faceVarifolds = [Fin 1; Fin 5; Fin (-2)] /\
   correctSigns lineRatio quarterFaces linePosition 3 TrivialNormalFaceCentroid
     (lcsNorm_init faceVarifolds) = [Fin 1; Fin 5; Fin 2] /\
   claimedSigns lineRatio quarterFaces linePosition 3 TrivialNormalFaceCentroid
     (lcsNorm_init faceVarifolds) = [Fin (-1); Fin 5; Fin 2]).
Proof.
  rewrite line_naive, face_naive. split; (split; [reflexivity | split]).
  - unfold correctSigns, correctWith. cbn [seq].
    rewrite fold_left_cons.
    rewrite (proj1 (line_vertexSum _ _ _)). cbn [nth dadd].
    rewrite resign_nonneg by lra. cbn [assign].
    replace (Rabs (-1)) with 1 by (rewrite Rabs_left; lra).
    rewrite fold_left_cons.
    rewrite (proj1 (proj2 (line_vertexSum _ _ _))). cbn [nth dadd].
    rewrite resign_nonneg by lra. cbn [assign].
    replace (Rabs 5) with 5 by (rewrite Rabs_pos_eq; lra).
    rewrite fold_left_cons.
    rewrite (proj2 (proj2 (line_vertexSum _ _ _))). cbn [nth dadd].
    rewrite resign_nonneg by lra. cbn [assign fold_left].
    replace (Rabs (1 / 2)) with (1 / 2) by (rewrite Rabs_pos_eq; lra).
    reflexivity.
  - unfold claimedSigns. cbn [seq map].
    rewrite (proj1 (line_weightedVertexSum quarterFaces _ _ _)).
    rewrite (proj1 (proj2 (line_weightedVertexSum quarterFaces _ _ _))).
    rewrite (proj2 (proj2 (line_weightedVertexSum quarterFaces _ _ _))).
    cbn [nth dadd dmul].
    rewrite (resign_neg 5) by lra. rewrite !resign_nonneg by lra.
    repeat f_equal; decide_reals; lra.
  - unfold correctSigns, correctWith. cbn [seq].
    rewrite fold_left_cons.
    rewrite (proj1 (quarter_faceSum _ _ _)). cbn [nth dadd].
    rewrite resign_nonneg by lra. cbn [assign].
    replace (Rabs 1) with 1 by (rewrite Rabs_pos_eq; lra).
    rewrite fold_left_cons.
    rewrite (proj1 (proj2 (quarter_faceSum _ _ _))). cbn [nth].
    rewrite resign_nonneg by lra. cbn [assign].
    replace (Rabs 5) with 5 by (rewrite Rabs_pos_eq; lra).
    rewrite fold_left_cons.
    rewrite (proj2 (proj2 (quarter_faceSum _ _ _))). cbn [nth].
    rewrite resign_nonneg by lra. cbn [assign fold_left].
    replace (Rabs (-2)) with 2 by (rewrite Rabs_left; lra).
    reflexivity.
  - unfold claimedSigns. cbn [seq map].
    rewrite (proj1 (quarter_weightedFaceSum (Fin 1) (Fin 5) (Fin (-2)))).
    rewrite (proj1 (proj2 (quarter_weightedFaceSum (Fin 1) (Fin 5) (Fin (-2))))).
    rewrite (proj2 (proj2 (quarter_weightedFaceSum (Fin 1) (Fin 5) (Fin (-2))))).
    cbn [nth dadd dmul].
    rewrite (resign_neg 1) by lra. rewrite !resign_nonneg by lra.
    repeat f_equal; decide_reals; lra.
Qed.

(** C3 fails as stated, on two counts.

    In place: three vertices on a line, each within distance 1 of the next,
    with naive values [-1, 5, 1/2].  Vertex 0 becomes [+1].  For vertex 1 the
    naive values of its neighbours sum to [-1 + 1/2 < 0], but the program
    reads the value [+1] it has just written for vertex 0, finds [3/2] and
    returns [+5].

    Unweighted: three faces with naive values [1, 5, -2]; the ball of face 0
    takes a quarter of face 1 and the whole of face 2.  The weighted sum is
    [5/4 - 2 < 0], but the program adds [5 - 2] and returns [+1]. *)
Lemma sign_correction_counterexample :
  nth 1 (correctSigns lineRatio quarterFaces linePosition 3 DualNormalFaceCentroid
           (lcsNorm_init lineVarifolds)) NaN = Fin 5 /\
  nth 1 (claimedSigns lineRatio quarterFaces linePosition 3 DualNormalFaceCentroid
           (lcsNorm_init lineVarifolds)) NaN = Fin (-5) /\
  nth 0 (correctSigns lineRatio quarterFaces linePosition 3 TrivialNormalFaceCentroid
           (lcsNorm_init faceVarifolds)) NaN = Fin 1 /\
  nth 0 (claimedSigns lineRatio quarterFaces linePosition 3 TrivialNormalFaceCentroid
           (lcsNorm_init faceVarifolds)) NaN = Fin (-1) /\
  correctSigns lineRatio quarterFaces linePosition 3 DualNormalFaceCentroid
    (lcsNorm_init lineVarifolds)
  <> claimedSigns lineRatio quarterFaces linePosition 3 DualNormalFaceCentroid
       (lcsNorm_init lineVarifolds) /\
  correctSigns lineRatio quarterFaces linePosition 3 TrivialNormalFaceCentroid
    (lcsNorm_init faceVarifolds)
  <> claimedSigns lineRatio quarterFaces linePosition 3 TrivialNormalFaceCentroid
       (lcsNorm_init faceVarifolds).
Proof.
  destruct sign_correction_values as ((_ & Ev & Ev') & (_ & Ef & Ef')).
  rewrite Ev, Ev', Ef, Ef'. cbn [nth].
  repeat split; try reflexivity; intros H; injection H; intros; lra.
Qed.

(** ** C4: the strict cut-off at the radius *)

(** C4.  For a radius [R > 0] and a candidate at Euclidean distance [d] from
    the centre, the pair returned is [(0, 0)] as soon as [d >= R], a tie
    [d = R] included; a pair with a nonzero entry is returned only when
    [d < R], and it is then the profile and its derivative at [d / R]. *)
Theorem cutoff_strict (c : RVec) (R0 : R) (k : DistributionType) (mesh : list RVec)
    (g : nat) :
  0 < R0 -> (g < length mesh)%nat ->
  let b := nth g mesh rzero in
  let d := rnorm (rsub b c) in
  let p := nth g (RadialDistance_call (RadialDistance_new (vfin c) (Fin R0) k)
                    (map vfin mesh)) (Fin 0, Fin 0) in
  norm (vsub (vfin b) (vfin c)) = Fin d /\
  (R0 <= d -> p = (Fin 0, Fin 0)) /\
  (d = R0 -> p = (Fin 0, Fin 0)) /\
  (fst p <> Fin 0 \/ snd p <> Fin 0 -> d < R0) /\
  (d < R0 -> p = (Fin (profile k (d / R0)), Fin (profile' k (d / R0)))).
Proof.
  intros HR Hg b d p.
  assert (Hp : p = if Rlt_dec d R0
                   then (Fin (profile k (d / R0)), Fin (profile' k (d / R0)))
                   else (Fin 0, Fin 0)).
  { unfold p. rewrite call_nth by assumption. reflexivity. }
  split; [rewrite vsub_vfin; apply norm_vfin | ].
  destruct (Rlt_dec d R0) as [Hd | Hd]; rewrite Hp; repeat split; intros H;
    try reflexivity; try lra.
  simpl in H. destruct H as [H | H]; exfalso; apply H; reflexivity.
Qed.

Lemma cutoff_strict_witness :
  nth 0 (RadialDistance_call (RadialDistance_new (vfin rzero) (Fin 1) Cone)
           (map vfin [V3 1 0 0])) (Fin 0, Fin 0) = (Fin 0, Fin 0).
Proof.
  refine (proj1 (proj2 (proj2 (cutoff_strict rzero 1 Cone [V3 1 0 0] 0 _ _))) _).
  - lra.
  - simpl; lia.
  - apply rnorm_exact; [lra | ].
    unfold rnorm2, rdot, rsub, rzero, vzip; cbn [nth cx cy cz]. ring.
Defined.

(** ** C5: a sample with no neighbour in its ball *)

(** C5, as the program has it.  A sample whose total kernel weight is zero
    is not detected: the final division is carried out as [0/0] and the
    vector returned has three NaN coordinates.  With [R > 0] that does not
    happen: a sample whose every other sample lies at distance [R] or more
    (both samples of a two-point input further apart than [R], for one) has
    its own weight [weight(0) > 0] as denominator, and the estimator returns
    the zero vector for it; nothing is signalled. *)
Theorem isolated_sample_zero_curvature (ps ns : list RVec) (R0 : R)
    (k : DistributionType) (f : nat) :
  (f < length ps)%nat ->
  (snd (sums (map vfin ps) (map vfin ns) (Fin R0) k f) = Fin 0 ->
   nth f (estimateCurvatures (map vfin ps) (map vfin ns) (Fin R0) k) vzero = vNaN) /\
  (0 < R0 ->
   (forall g, (g < length ps)%nat -> g <> f ->
              R0 <= rnorm (rsub (pos ps f) (pos ps g))) ->
   snd (sums (map vfin ps) (map vfin ns) (Fin R0) k f) = Fin (profile k 0) /\
   0 < profile k 0 /\
   nth f (estimateCurvatures (map vfin ps) (map vfin ns) (Fin R0) k) vNaN = vzero).
Proof.
  intros Hf. split.
  - intros Hz.
    rewrite estimateCurvatures_nth_any by (rewrite length_map_vfin; exact Hf).
    apply zero_denominator_curvature; assumption.
  - intros HR Hfar. split; [ | split].
    + rewrite sums_mirror, isolated_sums by assumption. reflexivity.
    + apply profile_0_pos.
    + rewrite estimateCurvatures_nth_any by (rewrite length_map_vfin; exact Hf).
      apply isolated_curvature; assumption.
Qed.

Lemma far_pair_distance (f g : nat) :
  (g < 2)%nat -> g <> f -> (f < 2)%nat ->
  1 <= rnorm (rsub (pos [V3 0 0 0; V3 2 0 0] f) (pos [V3 0 0 0; V3 2 0 0] g)).
Proof.
  intros Hg Hne Hf.
  assert (E : rnorm (rsub (pos [V3 0 0 0; V3 2 0 0] f) (pos [V3 0 0 0; V3 2 0 0] g)) = 2).
  { apply rnorm_exact; [lra | ].
    destruct f as [ | [ | f]], g as [ | [ | g]]; try lia;
      unfold rnorm2, rdot, rsub, pos, vzip; simpl; ring. }
  rewrite E. lra.
Qed.

Lemma isolated_sample_zero_curvature_witness :
  nth 0 (estimateCurvatures (map vfin [V3 0 0 0; V3 2 0 0])
           (map vfin [V3 0 0 1; V3 0 0 1]) (Fin 0) Cone) vzero = vNaN /\
  (snd (sums (map vfin [V3 0 0 0; V3 2 0 0]) (map vfin [V3 0 0 1; V3 0 0 1])
          (Fin 1) Cone 0) = Fin (profile Cone 0) /\
   0 < profile Cone 0 /\
   nth 0 (estimateCurvatures (map vfin [V3 0 0 0; V3 2 0 0])
            (map vfin [V3 0 0 1; V3 0 0 1]) (Fin 1) Cone) vNaN = vzero).
Proof.
  split.
  - refine (proj1 (isolated_sample_zero_curvature
                     [V3 0 0 0; V3 2 0 0] [V3 0 0 1; V3 0 0 1] 0 Cone 0 _) _).
    + simpl; lia.
    + rewrite sums_mirror, nonpositive_radius_sums by lra. reflexivity.
  - refine (proj2 (isolated_sample_zero_curvature
                     [V3 0 0 0; V3 2 0 0] [V3 0 0 1; V3 0 0 1] 1 Cone 0 _) _ _).
    + simpl; lia.
    + lra.
    + intros g Hg Hne. apply far_pair_distance; simpl in *; lia.
Defined.

(** C5 fails as stated: on the two samples [(0,0,0)] and [(2,0,0)] with
    [R = 1] and the flat-disc kernel the denominator of sample 0 is
    [3/(4 pi)], not zero, and the estimator returns the zero vector for both
    samples instead of signalling anything. *)
Lemma isolated_pair_counterexample :
  snd (sums (map vfin [V3 0 0 0; V3 2 0 0]) (map vfin [V3 0 0 1; V3 0 0 1])
         (Fin 1) FlatDisc 0) = Fin (3 / (4 * PI)) /\
  3 / (4 * PI) <> 0 /\
  estimateCurvatures (map vfin [V3 0 0 0; V3 2 0 0]) (map vfin [V3 0 0 1; V3 0 0 1])
    (Fin 1) FlatDisc = [vzero; vzero].
Proof.
  assert (HR : 0 < 1) by lra.
  assert (Hfar : forall f, (f < 2)%nat -> forall g, (g < 2)%nat -> g <> f ->
            1 <= rnorm (rsub (pos [V3 0 0 0; V3 2 0 0] f) (pos [V3 0 0 0; V3 2 0 0] g))).
  { intros f Hf g Hg Hne. apply far_pair_distance; assumption. }
  split; [ | split].
  - rewrite sums_mirror, isolated_sums; [reflexivity | lra | simpl; lia | ].
    apply Hfar. lia.
  - pose proof (profile_0_pos FlatDisc) as H. unfold profile in H. lra.
  - rewrite estimateCurvatures_unfold.
    change (length [V3 0 0 0; V3 2 0 0]) with 2%nat. rewrite map_seq_2.
    rewrite !isolated_curvature; try reflexivity; try lra; try (simpl; lia);
      apply Hfar; lia.
Qed.

(** ** C6: five coplanar samples *)

(** C6, as the program has it.  On the five coplanar samples with normal
    [(0,0,1)], radius [3/2] and the flat-disc kernel, the estimator returns
    the zero vector for the central sample only.  An outer sample has the
    centre and its two adjacent samples in its ball, not the opposite one;
    its numerator does not cancel and its curvature is its own position
    scaled by [(1 + sqrt 2)/6], a vector in the plane of the samples. *)
Theorem flat_cross_curvatures :
  estimateCurvatures (map vfin cross) (map vfin upward) (Fin (3 / 2)) FlatDisc
  = map vfin [V3 0 0 0;
              V3 ((1 + sqrt 2) / 6) 0 0;
              V3 0 ((1 + sqrt 2) / 6) 0;
              V3 (- (1 + sqrt 2) / 6) 0 0;
              V3 0 (- (1 + sqrt 2) / 6) 0].
Proof.
  rewrite estimateCurvatures_mirror.
  change (length cross) with 5%nat. rewrite map_seq_5.
  destruct cross_rcurvature as (E0 & E1 & E2 & E3 & E4).
  rewrite E0, E1, E2, E3, E4. reflexivity.
Qed.

(** C6 fails as stated: the curvature returned for the sample at [(1,0,0)]
    is [((1 + sqrt 2)/6, 0, 0)], whose first coordinate is not zero. *)
Lemma flat_cross_counterexample :
  nth 1 (estimateCurvatures (map vfin cross) (map vfin upward) (Fin (3 / 2)) FlatDisc) vzero
  = vfin (V3 ((1 + sqrt 2) / 6) 0 0) /\
  (1 + sqrt 2) / 6 <> 0 /\
  nth 1 (estimateCurvatures (map vfin cross) (map vfin upward) (Fin (3 / 2)) FlatDisc) vzero
  <> vzero.
Proof.
  assert (E : nth 1 (estimateCurvatures (map vfin cross) (map vfin upward) (Fin (3 / 2))
                       FlatDisc) vzero = vfin (V3 ((1 + sqrt 2) / 6) 0 0)).
  { rewrite estimateCurvatures_nth by (simpl; lia).
    rewrite (proj1 (proj2 cross_rcurvature)). reflexivity. }
  destruct sqrt2_facts as (Hs0 & _ & _).
  split; [exact E | split; [lra | ] ].
  rewrite E. intros H. injection H; intros; lra.
Qed.

(** ** C7: rigid motions *)

(** C7.  For every input and every rigid motion (an orthogonal [Q] and a
    translation [t]): moving every position by [Q] and [t] and every normal
    by [Q] and estimating gives, at each sample, [Q] applied to the
    curvature estimated from the input as it was. *)
Theorem rigid_motion_equivariance (Q : Mat3) (t : RVec) (ps ns : list RVec) (R0 : R)
    (k : DistributionType) (f : nat) :
  orthogonal Q -> (f < length ps)%nat ->
  nth f (estimateCurvatures (map vfin (map (rigid Q t) ps))
           (map vfin (map (mapply Q) ns)) (Fin R0) k) vzero
  = dapply Q (nth f (estimateCurvatures (map vfin ps) (map vfin ns) (Fin R0) k) vzero).
Proof.
  intros HQ Hf.
  rewrite !estimateCurvatures_nth by (rewrite ?length_map; exact Hf).
  rewrite rcurvature_moved by assumption.
  symmetry. apply dapply_embed.
Qed.

Lemma rigid_motion_equivariance_witness :
  nth 1 (estimateCurvatures (map vfin (map (rigid quarterTurn (V3 1 2 3)) cross))
           (map vfin (map (mapply quarterTurn) upward)) (Fin 2) Cone) vzero
  = dapply quarterTurn
      (nth 1 (estimateCurvatures (map vfin cross) (map vfin upward) (Fin 2) Cone) vzero).
Proof.
  apply rigid_motion_equivariance.
  - unfold orthogonal, col, rdot, quarterTurn; cbn [row1 row2 row3 cx cy cz].
    repeat split; ring.
  - simpl; lia.
Defined.

(** ** C8: a neighbour at the very place of the centre *)

(** C8, as the program has it.  When a sample [g <> f] lies exactly at
    [position[f]] (and [R > 0]), its weight is positive, so the term of [g]
    is added, and the norm that term is divided by is zero: the division
    [0/0] is carried out and the curvature returned for [f] has three NaN
    coordinates.  No error is reported. *)
Theorem coincident_sample_nan_curvature (ps ns : list RVec) (R0 : R)
    (k : DistributionType) (f g : nat) :
  0 < R0 -> (f < length ps)%nat -> (g < length ps)%nat -> g <> f ->
  nth g ps rzero = nth f ps rzero ->
  let b := nth f (map vfin ps) vzero in
  let weights := RadialDistance_call (RadialDistance_new b (Fin R0) k) (map vfin ps) in
  (fst (nth g weights (Fin 0, Fin 0)) >? Fin 0)%dbl = true /\
  norm (vsub (nth g (map vfin ps) vzero) b) = Fin 0 /\
  nth f (estimateCurvatures (map vfin ps) (map vfin ns) (Fin R0) k) vzero = vNaN.
Proof.
  intros HR Hf Hg Hne Heq b weights. unfold weights, b.
  destruct (coincident_guard ps R0 k f g HR Hg Heq) as [Hw Hd].
  split; [ | split].
  - rewrite Hw. unfold dgt, dlt. apply Rltb_true, profile_0_pos.
  - exact Hd.
  - rewrite estimateCurvatures_nth_any by (rewrite length_map_vfin; exact Hf).
    apply (coincident_curvature ps ns R0 k f g); assumption.
Qed.

Lemma coincident_sample_nan_curvature_witness :
  nth 0 (estimateCurvatures (map vfin [V3 0 0 0; V3 0 0 0])
           (map vfin [V3 0 0 1; V3 0 0 1]) (Fin 1) HalfSphere) vzero = vNaN.
Proof.
  refine (proj2 (proj2 (coincident_sample_nan_curvature
                          [V3 0 0 0; V3 0 0 0] [V3 0 0 1; V3 0 0 1] 1 HalfSphere 0 1
                          _ _ _ _ _))).
  - lra.
  - simpl; lia.
  - simpl; lia.
  - lia.
  - reflexivity.
Defined.

(** C8 fails as stated: two samples at [(0,0,0)], [R = 1], flat-disc kernel.
    Seen from sample 0, sample 1 has the positive weight [3/(4 pi)] and a
    displacement of norm zero; the term is divided by that norm all the same.
    The estimator returns a vector for each sample, and each is the NaN
    vector the division leaves. *)
Lemma coincident_pair_counterexample :
  fst (nth 1 (RadialDistance_call
                (RadialDistance_new (nth 0 (map vfin [V3 0 0 0; V3 0 0 0]) vzero)
                   (Fin 1) FlatDisc)
                (map vfin [V3 0 0 0; V3 0 0 0])) (Fin 0, Fin 0)) = Fin (3 / (4 * PI)) /\
  norm (vsub (nth 1 (map vfin [V3 0 0 0; V3 0 0 0]) vzero)
             (nth 0 (map vfin [V3 0 0 0; V3 0 0 0]) vzero)) = Fin 0 /\
  estimateCurvatures (map vfin [V3 0 0 0; V3 0 0 0]) (map vfin [V3 0 0 1; V3 0 0 1])
    (Fin 1) FlatDisc = [vNaN; vNaN].
Proof.
  assert (HR : 0 < 1) by lra.
  assert (H1 : (1 < length [V3 0 0 0; V3 0 0 0])%nat) by (simpl; lia).
  destruct (coincident_guard [V3 0 0 0; V3 0 0 0] 1 FlatDisc 0 1 HR H1 eq_refl)
    as [Hw Hd].
  split; [exact Hw | split; [exact Hd | ] ].
  rewrite estimateCurvatures_unfold.
  change (length [V3 0 0 0; V3 0 0 0]) with 2%nat. rewrite map_seq_2.
  rewrite (coincident_curvature [V3 0 0 0; V3 0 0 0] [V3 0 0 1; V3 0 0 1] 1 FlatDisc 0 1);
    try lra; try (simpl; lia); try reflexivity.
  rewrite (coincident_curvature [V3 0 0 0; V3 0 0 0] [V3 0 0 1; V3 0 0 1] 1 FlatDisc 1 0);
    try lra; try (simpl; lia); try reflexivity.
Qed.

(** ** C9: a radius that is not positive *)

(** C9, as the program has it.  A radius [R <= 0] is not rejected.  The
    kernel is evaluated for every sample and returns the pair [(0, 0)]
    everywhere, both sums stay zero, and the estimator returns one vector per
    sample, each with three NaN coordinates (the final [0/0]). *)
Theorem nonpositive_radius_not_rejected (ps ns : list RVec) (R0 : R)
    (k : DistributionType) :
  R0 <= 0 ->
  (forall c : RVec,
      RadialDistance_call (RadialDistance_new (vfin c) (Fin R0) k) (map vfin ps)
      = repeat (Fin 0, Fin 0) (length ps)) /\
  (forall f : nat, sums (map vfin ps) (map vfin ns) (Fin R0) k f = (vzero, Fin 0)) /\
  estimateCurvatures (map vfin ps) (map vfin ns) (Fin R0) k = repeat vNaN (length ps).
Proof.
  intros HR. split; [ | split].
  - intros c. apply nonpositive_radius_weights; assumption.
  - intros f. rewrite sums_mirror, nonpositive_radius_sums by assumption. reflexivity.
  - rewrite estimateCurvatures_unfold. rewrite <- (map_const_seq vNaN 0).
    apply map_ext. intros f. apply nonpositive_radius_curvature; assumption.
Qed.

Lemma nonpositive_radius_not_rejected_witness :
  estimateCurvatures (map vfin [V3 0 0 0; V3 1 0 0]) (map vfin [V3 0 0 1; V3 0 0 1])
    (Fin 0) Cone = repeat vNaN 2.
Proof.
  refine (proj2 (proj2 (nonpositive_radius_not_rejected
                          [V3 0 0 0; V3 1 0 0] [V3 0 0 1; V3 0 0 1] 0 Cone _))).
  lra.
Defined.

(** C9 fails as stated: with [R = -1] and one sample the estimator does not
    stop before computing; it returns a vector for the sample, made of NaNs. *)
Lemma negative_radius_counterexample :
  estimateCurvatures (map vfin [V3 0 0 0]) (map vfin [V3 0 0 1]) (Fin (-1)) FlatDisc
  = [vNaN] /\
  estimateCurvatures (map vfin [V3 0 0 0]) (map vfin [V3 0 0 1]) (Fin (-1)) FlatDisc
  <> [].
Proof.
  assert (E : estimateCurvatures (map vfin [V3 0 0 0]) (map vfin [V3 0 0 1])
                (Fin (-1)) FlatDisc = [vNaN]).
  { rewrite estimateCurvatures_unfold.
    change (length [V3 0 0 0]) with 1%nat. rewrite map_seq_1.
    rewrite nonpositive_radius_curvature by lra. reflexivity. }
  split; [exact E | rewrite E; discriminate].
Qed.

(** ** C10: the denominator is positive *)

(** C10.  With [R > 0], whatever the kernel, the weight a sample gives to
    itself is [weight(0)], that is [3/(4 pi)], [pi/12] or [1/(2 pi)], and is
    positive; the denominator of the sample is a finite number at least as
    large, and the divisor [denominator * R] of the final division is a
    nonzero finite number. *)
Theorem denominator_positive (ps ns : list RVec) (R0 : R) (k : DistributionType)
    (f : nat) :
  0 < R0 -> (f < length ps)%nat ->
  let w0 := match k with
            | FlatDisc => 3 / (4 * PI)
            | Cone => PI / 12
            | HalfSphere => 1 / (2 * PI)
            end in
  let b := nth f (map vfin ps) vzero in
  let weights := RadialDistance_call (RadialDistance_new b (Fin R0) k) (map vfin ps) in
  fst (nth f weights (Fin 0, Fin 0)) = Fin w0 /\
  0 < w0 /\
  exists D : R,
    snd (sums (map vfin ps) (map vfin ns) (Fin R0) k f) = Fin D /\
    w0 <= D /\ 0 < D /\
    (Fin D * Fin R0)%dbl = Fin (D * R0) /\ D * R0 <> 0.
Proof.
  intros HR Hf w0 b weights.
  assert (Hw0 : w0 = profile k 0).
  { unfold w0, profile. destruct k; [reflexivity | field | field].
    pose proof PI_RGT_0; lra. }
  pose proof (profile_0_pos k) as Hpos. rewrite <- Hw0 in Hpos.
  split; [ | split; [exact Hpos | ] ].
  - unfold weights, b. rewrite nth_map_vfin, call_nth by assumption.
    rewrite rsub_self, rnorm_rzero. cbv zeta.
    destruct (Rlt_dec 0 R0) as [_ | H]; [ | contradiction].
    cbn [fst]. replace (0 / R0) with 0 by (unfold Rdiv; ring).
    rewrite Hw0. reflexivity.
  - exists (denominator ps R0 k f).
    pose proof (denominator_ge_self ps R0 k f Hf) as Hge. rewrite <- Hw0 in Hge.
    rewrite sums_mirror, rsums_formula by assumption. cbn [snd].
    repeat split; try reflexivity; try lra.
    nra.
Qed.

Lemma denominator_positive_witness :
  exists D : R,
    snd (sums (map vfin [V3 0 0 0; V3 1 0 0]) (map vfin [V3 0 0 1; V3 0 0 1])
           (Fin 2) HalfSphere 1) = Fin D /\
    1 / (2 * PI) <= D /\ 0 < D /\
    (Fin D * Fin 2)%dbl = Fin (D * 2) /\ D * 2 <> 0.
Proof.
  refine (proj2 (proj2 (denominator_positive
                          [V3 0 0 0; V3 1 0 0] [V3 0 0 1; V3 0 0 1] 2 HalfSphere 1 _ _))).
  - lra.
  - simpl; lia.
Defined.

(** * Further properties of the program *)

(** ** [computeVarifolds] *)

Lemma computeLocalCurvature_methods (surface : SurfaceData) (cRadius : double)
    (cDistribType : DistributionType) (method : Method) :
  computeLocalCurvature surface cRadius cDistribType method
  = estimateCurvatures (methodPositions surface method) (methodNormals surface method)
      cRadius cDistribType.
Proof. destruct method; reflexivity. Qed.

Lemma computeVarifolds_methods (surface : SurfaceData) (cRadius : double)
    (cDistribType : DistributionType) (method : Method) :
  computeVarifolds surface cRadius cDistribType method
  = map (fun f => mkVarifold (nth f (methodPositions surface method) vzero)
                             (nth f (methodNormals surface method) vzero)
                             (nth f (computeLocalCurvature surface cRadius cDistribType method)
                                  vzero))
        (seq 0 (length (methodPositions surface method))).
Proof. destruct method; reflexivity. Qed.

(** X1.  [computeVarifolds] returns one varifold per sample of the method
    (none for the two methods the switch does not handle), and the varifold
    of sample [i] holds the position of [i], the normal of [i] that the
    estimator was given, and the curvature the estimator computed for [i]. *)
Theorem computeVarifolds_aligned (surface : SurfaceData) (cRadius : double)
    (cDistribType : DistributionType) (method : Method) (i : nat) :
  (i < length (methodPositions surface method))%nat ->
  let positions := methodPositions surface method in
  let normals := methodNormals surface method in
  let varifolds := computeVarifolds surface cRadius cDistribType method in
  length varifolds = length positions /\
  length (computeLocalCurvature surface cRadius cDistribType method) = length positions /\
  vf_position (nth i varifolds noVarifold) = nth i positions vzero /\
  planeNormal (nth i varifolds noVarifold) = nth i normals vzero /\
  curvature (nth i varifolds noVarifold)
  = curvatureOf positions normals cRadius cDistribType i.
Proof.
  intros Hi positions normals varifolds.
  assert (Hv : nth i varifolds noVarifold
               = mkVarifold (nth i positions vzero) (nth i normals vzero)
                   (nth i (computeLocalCurvature surface cRadius cDistribType method) vzero)).
  { unfold varifolds. rewrite computeVarifolds_methods. fold positions normals.
    set (mk := fun f => mkVarifold (nth f positions vzero) (nth f normals vzero)
                          (nth f (computeLocalCurvature surface cRadius cDistribType method)
                               vzero)).
    rewrite (nth_indep _ noVarifold (mk 0%nat)) by (rewrite length_map, length_seq; exact Hi).
    rewrite (map_nth mk (seq 0 (length positions)) 0%nat i).
    rewrite seq_nth by exact Hi. reflexivity. }
  repeat split.
  - unfold varifolds. rewrite computeVarifolds_methods, length_map, length_seq. reflexivity.
  - rewrite computeLocalCurvature_methods. unfold estimateCurvatures, nbElements.
    rewrite length_map, length_seq. reflexivity.
  - rewrite Hv. reflexivity.
  - rewrite Hv. reflexivity.
  - rewrite Hv. cbn [curvature]. rewrite computeLocalCurvature_methods.
    apply estimateCurvatures_nth_any. exact Hi.
Qed.

Lemma computeVarifolds_aligned_witness :
  curvature (nth 1 (computeVarifolds
                      (mkSurfaceData (map vfin cross) (map vfin upward) [] [] [])
                      (Fin 2) Cone TrivialNormalFaceCentroid) noVarifold)
  = curvatureOf (map vfin cross) (map vfin upward) (Fin 2) Cone 1.
Proof.
  refine (proj2 (proj2 (proj2 (proj2
            (computeVarifolds_aligned
               (mkSurfaceData (map vfin cross) (map vfin upward) [] [] [])
               (Fin 2) Cone TrivialNormalFaceCentroid 1 _))))).
  simpl; lia.
Defined.

(** ** The command line names *)

Module CommandLineFacts.

Import String.

(** X2.  Distinct methods have distinct display names, so the quantities
    registered for two methods never share a name. *)
Theorem methodToString_injective (a b : Method) :
  a <> b -> methodToString a <> methodToString b.
Proof.
  intros Hab. destruct a, b; try (exfalso; apply Hab; reflexivity); discriminate.
Qed.

Lemma methodToString_injective_witness :
  methodToString TrivialNormalFaceCentroid <> methodToString CorrectedNormalFaceCentroid.
Proof.
  apply methodToString_injective. discriminate.
Defined.

(** X3.  A method name other than [tnfc], [dnfc] and [cnfc] selects a method
    the switch does not handle: the curvature vector and the varifold vector
    come back empty, without any error. *)
Theorem unknown_method_name_gives_nothing (arg : string) (surface : SurfaceData)
    (cRadius : double) (cDistribType : DistributionType) :
  arg <> "tnfc"%string -> arg <> "dnfc"%string -> arg <> "cnfc"%string ->
  computeLocalCurvature surface cRadius cDistribType (argToMethod arg) = [] /\
  computeVarifolds surface cRadius cDistribType (argToMethod arg) = [].
Proof.
  intros H1 H2 H3. unfold argToMethod.
  apply String.eqb_neq in H1, H2, H3. rewrite H1, H2, H3.
  destruct (String.eqb arg "pot"); split; reflexivity.
Qed.

Lemma unknown_method_name_gives_nothing_witness :
  computeLocalCurvature (mkSurfaceData (map vfin cross) (map vfin upward) [] [] [])
    (Fin 2) Cone (argToMethod "tncf"%string) = [] /\
  computeVarifolds (mkSurfaceData (map vfin cross) (map vfin upward) [] [] [])
    (Fin 2) Cone (argToMethod "tncf"%string) = [].
Proof.
  apply unknown_method_name_gives_nothing; discriminate.
Defined.

End CommandLineFacts.

(** ** [makeColorMap] *)

(** X4.  Whatever the range [minv <= maxv], a value of the range is coloured
    by a map whose own range contains it, and the ramp is fixed by the sign:
    blue to white for a negative value, white to red to black otherwise. *)
Theorem colorMap_covers (minv maxv x : R) :
  minv <= x <= maxv ->
  let gcm := colorMapFor (makeColorMap (Fin minv) (Fin maxv)) (Fin x) in
  exists lo hi : R,
    gcmMin gcm = Fin lo /\ gcmMax gcm = Fin hi /\ lo <= x <= hi /\
    gcmColors gcm
    = if Rlt_dec x 0
      then [mkColor 0 0 255; mkColor 255 255 255]
      else [mkColor 255 255 255; mkColor 255 0 0; mkColor 0 0 0].
Proof.
  intros Hx gcm. unfold gcm, colorMapFor, makeColorMap, dgt, dlt, Rltb.
  destruct (Rlt_dec maxv 0) as [Hmax | Hmax].
  - destruct (Rlt_dec x 0) as [_ | H]; [ | exfalso; lra].
    exists minv, maxv. cbn. repeat split; lra.
  - destruct (Rlt_dec 0 minv) as [Hmin | Hmin].
    + destruct (Rlt_dec x 0) as [H | _]; [exfalso; lra | ].
      exists minv, maxv. cbn. repeat split; lra.
    + destruct (Rlt_dec x 0) as [H | H].
      * exists minv, 0. cbn. repeat split; lra.
      * exists 0, maxv. cbn. repeat split; lra.
Qed.

Lemma colorMap_covers_witness :
  exists lo hi : R,
    gcmMin (colorMapFor (makeColorMap (Fin (-2)) (Fin 3)) (Fin (-1))) = Fin lo /\
    gcmMax (colorMapFor (makeColorMap (Fin (-2)) (Fin 3)) (Fin (-1))) = Fin hi /\
    lo <= -1 <= hi /\
    gcmColors (colorMapFor (makeColorMap (Fin (-2)) (Fin 3)) (Fin (-1)))
    = if Rlt_dec (-1) 0
      then [mkColor 0 0 255; mkColor 255 255 255]
      else [mkColor 255 255 255; mkColor 255 0 0; mkColor 0 0 0].
Proof.
  apply (colorMap_covers (-2) 3 (-1)). lra.
Defined.

(** ** The sign correction *)

Lemma dabs_resign (x s : double) : dabs (resign x s) = dabs x.
Proof.
  unfold resign. destruct (s <? Fin 0)%dbl; destruct x as [a | b | ]; cbn [dabs dmul];
    try reflexivity.
  - f_equal. rewrite Rabs_mult, Rabs_Rabsolu.
    replace (Rabs (-1)) with 1 by (rewrite Rabs_left; lra). ring.
  - rewrite Reqb_false by lra. reflexivity.
  - f_equal. rewrite Rabs_mult, Rabs_Rabsolu, Rabs_R1. ring.
  - rewrite Reqb_false by lra. reflexivity.
Qed.

Lemma length_correctWith (n : nat) (sumOf : list double -> nat -> double)
    (l : list double) :
  length (correctWith n sumOf l) = length l.
Proof. rewrite correctWith_sweep. apply length_sweep. Qed.

Lemma correctSigns_correctWith (ratio : RealPoint -> double -> nat -> double)
    (faces : double -> nat -> list (nat * double)) (vpos : nat -> RealPoint) (n : nat)
    (m : Method) (l : list double) :
  exists sumOf, correctSigns ratio faces vpos n m l = correctWith n sumOf l /\
                forall l' i, sumOf l' i
                             = dsum (map (fun g => nth g l' NaN)
                                         (neighbours ratio faces vpos n m i)).
Proof.
  destruct (Method_eq_dec m DualNormalFaceCentroid) as [-> | Hm].
  - exists (vertexSum ratio vpos n). split; [reflexivity | ].
    intros l' i. apply vertexSum_neighbours.
  - exists (faceSum faces). split.
    + destruct m; try reflexivity; contradiction.
    + intros l' i. apply faceSum_neighbours; assumption.
Qed.

Lemma dabs_correctWith (n : nat) (sumOf : list double -> nat -> double)
    (l : list double) (i : nat) :
  dabs (nth i (correctWith n sumOf l) NaN) = dabs (nth i l NaN).
Proof.
  destruct (Nat.lt_ge_cases i (length l)) as [Hl | Hl].
  - destruct (Nat.lt_ge_cases i n) as [Hn | Hn].
    + rewrite correctWith_nth by assumption. apply dabs_resign.
    + rewrite correctWith_sweep, sweep_above by assumption. reflexivity.
  - rewrite !nth_overflow; [reflexivity | exact Hl | rewrite length_correctWith; exact Hl].
Qed.

(** X5.  The sign pass changes signs only: the vector keeps its length and
    every entry keeps its absolute value, whatever the method, the adjacency
    and the values. *)
Theorem correctSigns_keeps_magnitudes (ratio : RealPoint -> double -> nat -> double)
    (faces : double -> nat -> list (nat * double)) (vpos : nat -> RealPoint) (n : nat)
    (m : Method) (lcsNorm : list double) :
  length (correctSigns ratio faces vpos n m lcsNorm) = length lcsNorm /\
  forall i : nat,
    dabs (nth i (correctSigns ratio faces vpos n m lcsNorm) NaN) = dabs (nth i lcsNorm NaN).
Proof.
  destruct (correctSigns_correctWith ratio faces vpos n m lcsNorm) as [sumOf [-> _]].
  split; [apply length_correctWith | intros i; apply dabs_correctWith].
Qed.

Lemma dmul_one (a : double) : (dabs a * Fin 1)%dbl = dabs a.
Proof.
  destruct a as [x | s | ]; cbn [dabs dmul]; try reflexivity.
  - f_equal. ring.
  - rewrite Reqb_false by lra. rewrite Rltb_false by lra. reflexivity.
Qed.

(** X6.  A sample without any neighbour of positive inclusion ratio gets the
    absolute value of its naive value: its sum is the initial [0], which is
    not negative, so a negative naive value is turned positive. *)
Theorem lonely_sample_made_positive (ratio : RealPoint -> double -> nat -> double)
    (faces : double -> nat -> list (nat * double)) (vpos : nat -> RealPoint) (n : nat)
    (m : Method) (lcsNorm : list double) (i : nat) :
  (i < n)%nat -> (i < length lcsNorm)%nat ->
  neighbours ratio faces vpos n m i = [] ->
  nth i (correctSigns ratio faces vpos n m lcsNorm) NaN = dabs (nth i lcsNorm NaN).
Proof.
  intros Hn Hl Hnone.
  destruct (correctSigns_correctWith ratio faces vpos n m lcsNorm) as [sumOf [-> Hsum]].
  rewrite correctWith_nth by assumption.
  rewrite Hsum, Hnone. cbn [map]. unfold dsum, resign. cbn [fold_left].
  unfold dlt. rewrite Rltb_false by lra. apply dmul_one.
Qed.

Lemma lonely_sample_made_positive_witness :
  nth 1 (correctSigns noRatio quarterFaces linePosition 3 TrivialNormalFaceCentroid
           [Fin 1; Fin (-5); Fin 2]) NaN
  = dabs (nth 1 [Fin 1; Fin (-5); Fin 2] NaN).
Proof.
  apply lonely_sample_made_positive.
  - lia.
  - simpl; lia.
  - reflexivity.
Defined.

Lemma assign_same (l : list double) (i : nat) (x : double) :
  nth i l NaN = x -> (i < length l)%nat -> assign l i x = l.
Proof.
  revert i. induction l as [ | h t IH]; intros [ | j] Hx Hi; simpl in *; try lia.
  - rewrite Hx. reflexivity.
  - rewrite IH; [reflexivity | assumption | lia].
Qed.

Lemma assign_overflow (l : list double) (i : nat) (x : double) :
  (length l <= i)%nat -> assign l i x = l.
Proof.
  revert i. induction l as [ | h t IH]; intros [ | j] Hi; simpl in *; try reflexivity; try lia.
  rewrite IH by lia. reflexivity.
Qed.

(** A sum of entries none of which is negative is not negative (it may be
    NaN when an index leaves the vector). *)
Lemma dsum_not_negative (l : list double) (idx : list nat) (acc : double) :
  Forall nonneg l -> (acc <? Fin 0)%dbl = false ->
  (match acc with Inf _ => False | _ => True end) ->
  (fold_left dadd (map (fun g => nth g l NaN) idx) acc <? Fin 0)%dbl = false.
Proof.
  intros Hl. revert acc. induction idx as [ | g idx IH]; intros acc Hacc Hinf.
  - exact Hacc.
  - cbn [map fold_left]. apply IH.
    + destruct (Nat.lt_ge_cases g (length l)) as [Hg | Hg].
      * assert (Hn : nonneg (nth g l NaN))
          by (apply (proj1 (Forall_forall nonneg l) Hl), nth_In; exact Hg).
        destruct (nth g l NaN) as [y | | ]; cbn [nonneg] in Hn; try contradiction.
        destruct acc as [a | | ]; try contradiction; [ | reflexivity].
        cbn [dadd dlt] in *. apply Rltb_false.
        assert (~ a < 0) by (intros H; rewrite (Rltb_true _ _ H) in Hacc; discriminate).
        lra.
      * rewrite nth_overflow by exact Hg. destruct acc; reflexivity.
    + destruct acc as [a | | ]; try contradiction;
        destruct (nth g l NaN) as [y | s | ] eqn:E; cbn [dadd]; try exact I.
      exfalso.
      destruct (Nat.lt_ge_cases g (length l)) as [Hg | Hg].
      * assert (Hn : nonneg (nth g l NaN))
          by (apply (proj1 (Forall_forall nonneg l) Hl), nth_In; exact Hg).
        rewrite E in Hn. exact Hn.
      * rewrite nth_overflow in E by exact Hg. discriminate.
Qed.

Lemma resign_nonneg_fixed (x s : double) :
  nonneg x -> (s <? Fin 0)%dbl = false -> resign x s = x.
Proof.
  intros Hx Hs. unfold resign. rewrite Hs.
  destruct x as [a | | ]; cbn [nonneg] in Hx; try contradiction.
  cbn [dabs dmul]. f_equal. rewrite Rabs_pos_eq by assumption. ring.
Qed.

Lemma sweep_fixed (upd : list double -> nat -> double) (l : list double) (m : nat) :
  (forall i, (i < length l)%nat -> upd l i = nth i l NaN) -> sweep upd m l = l.
Proof.
  intros Hupd. induction m as [ | m IH]; [reflexivity | ].
  rewrite sweep_S, IH.
  destruct (Nat.lt_ge_cases m (length l)) as [Hm | Hm].
  - apply assign_same; [symmetry; apply Hupd; exact Hm | exact Hm].
  - apply assign_overflow; exact Hm.
Qed.

(** X7.  A vector of finite values none of which is negative is left as it
    is by the sign pass, whatever the method and the adjacency. *)
Theorem correctSigns_fixes_nonnegative (ratio : RealPoint -> double -> nat -> double)
    (faces : double -> nat -> list (nat * double)) (vpos : nat -> RealPoint) (n : nat)
    (m : Method) (lcsNorm : list double) :
  Forall nonneg lcsNorm ->
  correctSigns ratio faces vpos n m lcsNorm = lcsNorm.
Proof.
  intros Hl.
  destruct (correctSigns_correctWith ratio faces vpos n m lcsNorm) as [sumOf [-> Hsum]].
  rewrite correctWith_sweep. apply sweep_fixed.
  intros i Hi. apply resign_nonneg_fixed.
  - apply (proj1 (Forall_forall nonneg lcsNorm) Hl), nth_In; exact Hi.
  - rewrite Hsum. unfold dsum. apply dsum_not_negative; try assumption.
    + unfold dlt. apply Rltb_false. lra.
    + exact I.
Qed.

Lemma correctSigns_fixes_nonnegative_witness :
  correctSigns lineRatio quarterFaces linePosition 3 DualNormalFaceCentroid
    [Fin 1; Fin 0; Fin (1 / 2)] = [Fin 1; Fin 0; Fin (1 / 2)].
Proof.
  apply correctSigns_fixes_nonnegative.
  repeat constructor; simpl; lra.
Defined.

(** ** The naive signed curvature *)

(** X8.  For a finite normal and curvature, the naive signed curvature has
    the norm of the curvature as absolute value, and it is positive exactly
    when the curvature has a positive component along the normal; a
    curvature orthogonal to the normal counts as not positive. *)
Theorem naiveSigned_sign (p : RealPoint) (n c : RVec) :
  exists s : R,
    naiveSigned (mkVarifold p (vfin n) (vfin c)) = Fin s /\
    Rabs s = rnorm c /\
    (0 < s <-> 0 < rdot n c).
Proof.
  rewrite naiveSigned_vfin. pose proof (rnorm_nonneg c) as Hc.
  destruct (Rlt_dec 0 (rdot n c)) as [Hd | Hd].
  - exists (rnorm c). split; [reflexivity | split; [apply Rabs_pos_eq; exact Hc | ] ].
    split; intros _; [exact Hd | ].
    destruct (Req_dec_T (rnorm c) 0) as [Hz | Hz]; [ | lra].
    exfalso. rewrite (rnorm_zero c Hz) in Hd.
    unfold rdot, rzero in Hd; cbn [cx cy cz] in Hd. lra.
  - exists (- rnorm c). split; [reflexivity | split].
    + rewrite Rabs_Ropp. apply Rabs_pos_eq; exact Hc.
    + split; intros H; exfalso; lra.
Qed.

(** ** The kernel *)

Lemma profile_pos_inside (k : DistributionType) (t : R) : 0 <= t < 1 -> 0 < profile k t.
Proof.
  intros Ht. pose proof PI_RGT_0.
  destruct k; unfold profile, Rdiv.
  - apply Rmult_lt_0_compat; [lra | apply Rinv_0_lt_compat; lra].
  - apply Rmult_lt_0_compat; [nra | apply Rinv_0_lt_compat; lra].
  - apply Rmult_lt_0_compat; [nra | apply Rinv_0_lt_compat; lra].
Qed.

Lemma profile'_nonpos (k : DistributionType) (t : R) : 0 <= t -> profile' k t <= 0.
Proof.
  intros Ht. pose proof PI_RGT_0 as Hpi.
  assert (Hi : 0 < / PI) by (apply Rinv_0_lt_compat; lra).
  destruct k; unfold profile', Rdiv; [lra | lra | nra].
Qed.

Lemma profile_decreasing (k : DistributionType) (s t : R) :
  0 <= s <= t -> profile k t <= profile k s.
Proof.
  intros Hst. pose proof PI_RGT_0 as Hpi.
  assert (Hi : 0 < / (2 * PI)) by (apply Rinv_0_lt_compat; lra).
  destruct k; unfold profile, Rdiv; [lra | nra | ].
  apply Rmult_le_compat_r; [lra | nra].
Qed.

Lemma ratio_in_unit (d R0 : R) : 0 <= d < R0 -> 0 <= d / R0 < 1.
Proof.
  intros Hd. assert (HR : 0 < R0) by lra.
  assert (Hi : 0 < / R0) by (apply Rinv_0_lt_compat; exact HR).
  assert (E : d = d / R0 * R0) by (field; lra).
  split.
  - unfold Rdiv. nra.
  - destruct (Rlt_dec (d / R0) 1); [assumption | exfalso; nra].
Qed.

Lemma ratio_monotone (d1 d2 R0 : R) : 0 < R0 -> d1 <= d2 -> d1 / R0 <= d2 / R0.
Proof.
  intros HR Hd. assert (Hi : 0 < / R0) by (apply Rinv_0_lt_compat; exact HR).
  unfold Rdiv. nra.
Qed.

(** X9.  On finite data the kernel returns finite pairs: a weight that is
    never negative and a derivative that is never positive; the weight is
    positive exactly for the points strictly inside the ball, whatever the
    profile and whatever the sign of the radius. *)
Theorem kernel_weight_sign (c : RVec) (R0 : R) (k : DistributionType) (mesh : list RVec)
    (g : nat) :
  (g < length mesh)%nat ->
  let d := rnorm (rsub (nth g mesh rzero) c) in
  exists w w' : R,
    nth g (RadialDistance_call (RadialDistance_new (vfin c) (Fin R0) k) (map vfin mesh))
          (Fin 0, Fin 0) = (Fin w, Fin w') /\
    0 <= w /\ w' <= 0 /\ (0 < w <-> d < R0).
Proof.
  intros Hg d. rewrite call_nth by assumption. cbv zeta. fold d.
  pose proof (rnorm_nonneg (rsub (nth g mesh rzero) c)) as Hd. fold d in Hd.
  destruct (Rlt_dec d R0) as [Hlt | Hge].
  - pose proof (ratio_in_unit d R0 (conj Hd Hlt)) as Ht.
    pose proof (profile_pos_inside k _ Ht) as Hp.
    exists (profile k (d / R0)), (profile' k (d / R0)).
    split; [reflexivity | ]. split; [lra | ]. split; [apply profile'_nonpos; lra | ].
    split; intros _; assumption.
  - exists 0, 0.
    split; [reflexivity | ]. split; [lra | ]. split; [lra | ].
    split; intros H; exfalso; lra.
Qed.

Lemma kernel_weight_sign_witness :
  exists w w' : R,
    nth 1 (RadialDistance_call (RadialDistance_new (vfin rzero) (Fin 2) HalfSphere)
             (map vfin cross)) (Fin 0, Fin 0) = (Fin w, Fin w') /\
    0 <= w /\ w' <= 0 /\
    (0 < w <-> rnorm (rsub (nth 1 cross rzero) rzero) < 2).
Proof.
  apply (kernel_weight_sign rzero 2 HalfSphere cross 1). simpl; lia.
Defined.

Lemma rweight_decreasing (R0 : R) (k : DistributionType) (d1 d2 : R) :
  0 <= d1 <= d2 -> rweight R0 k d2 <= rweight R0 k d1.
Proof.
  intros Hd. unfold rweight.
  destruct (Rlt_dec d2 R0) as [H2 | H2], (Rlt_dec d1 R0) as [H1 | H1]; try lra.
  - apply profile_decreasing. split.
    + apply ratio_in_unit. lra.
    + apply ratio_monotone; lra.
  - pose proof (profile_pos_inside k (d1 / R0) (ratio_in_unit d1 R0 (conj (proj1 Hd) H1))).
    lra.
Qed.

(** X10.  The weight does not grow with the distance: of two points of the
    mesh, the one further from the centre never has the larger weight, the
    cut-off at the radius included. *)
Theorem kernel_weight_decreasing (c : RVec) (R0 : R) (k : DistributionType)
    (mesh : list RVec) (g1 g2 : nat) :
  (g1 < length mesh)%nat -> (g2 < length mesh)%nat ->
  rnorm (rsub (nth g1 mesh rzero) c) <= rnorm (rsub (nth g2 mesh rzero) c) ->
  let weights := RadialDistance_call (RadialDistance_new (vfin c) (Fin R0) k)
                   (map vfin mesh) in
  dval (fst (nth g2 weights (Fin 0, Fin 0))) <= dval (fst (nth g1 weights (Fin 0, Fin 0))).
Proof.
  intros H1 H2 Hd weights. unfold weights. rewrite !call_nth by assumption. cbv zeta.
  pose proof (rweight_decreasing R0 k _ _
                (conj (rnorm_nonneg (rsub (nth g1 mesh rzero) c)) Hd)) as H.
  unfold rweight in H.
  destruct (Rlt_dec (rnorm (rsub (nth g2 mesh rzero) c)) R0),
           (Rlt_dec (rnorm (rsub (nth g1 mesh rzero) c)) R0); exact H.
Qed.

Lemma kernel_weight_decreasing_witness :
  dval (fst (nth 1 (RadialDistance_call (RadialDistance_new (vfin rzero) (Fin 2) Cone)
                      (map vfin cross)) (Fin 0, Fin 0)))
  <= dval (fst (nth 0 (RadialDistance_call (RadialDistance_new (vfin rzero) (Fin 2) Cone)
                         (map vfin cross)) (Fin 0, Fin 0))).
Proof.
  apply (kernel_weight_decreasing rzero 2 Cone cross 0 1).
  - simpl; lia.
  - simpl; lia.
  - rewrite (rnorm_exact (rsub (nth 0 cross rzero) rzero) 0),
      (rnorm_exact (rsub (nth 1 cross rzero) rzero) 1);
      try lra; unfold rnorm2, rdot, rsub, rzero, cross, vzip; cbn [nth cx cy cz]; ring.
Defined.

Lemma profile_derivative (k : DistributionType) (t : R) :
  derivable_pt_lim (profile k) t (profile' k t).
Proof.
  pose proof PI_RGT_0 as Hpi.
  intros eps Heps. destruct k; unfold profile, profile'.
  - exists (mkposreal 1 Rlt_0_1). intros h Hh _.
    replace ((3 / (4 * PI) - 3 / (4 * PI)) / h - 0) with 0 by (field; lra).
    rewrite Rabs_R0. exact Heps.
  - exists (mkposreal 1 Rlt_0_1). intros h Hh _.
    replace (((1 - (t + h)) * PI / 12 - (1 - t) * PI / 12) / h - - PI / 12) with 0
      by (field; lra).
    rewrite Rabs_R0. exact Heps.
  - assert (Hdelta : 0 < eps * (2 * PI)) by nra.
    exists (mkposreal _ Hdelta). intros h Hh Hlt. simpl in Hlt.
    replace (((1 - (t + h) * (t + h)) / (2 * PI) - (1 - t * t) / (2 * PI)) / h - - t / PI)
      with (- h * / (2 * PI)) by (field; lra).
    rewrite Rabs_mult, Rabs_Ropp.
    assert (Hi : 0 < / (2 * PI)) by (apply Rinv_0_lt_compat; lra).
    rewrite (Rabs_pos_eq (/ (2 * PI))) by lra.
    apply Rmult_lt_reg_r with (2 * PI); [lra | ].
    rewrite Rmult_assoc, Rinv_l by lra. lra.
Qed.

(** X11.  For each of the three profiles the second lambda is the derivative
    of the first: at every [t] the weight function is differentiable and
    its derivative is the value the derivative function returns. *)
Theorem measureFunctionDerivate_is_derivative (c : RealPoint) (r : double)
    (k : DistributionType) (t : R) :
  derivable_pt_lim
    (fun x => dval (measureFunction (RadialDistance_new c r k) (Fin x))) t
    (dval (measureFunctionDerivate (RadialDistance_new c r k) (Fin t))).
Proof.
  rewrite measureFunctionDerivate_Fin. cbn [dval].
  intros eps Heps. destruct (profile_derivative k t eps Heps) as [delta Hdelta].
  exists delta. intros h Hh Hlt.
  rewrite !measureFunction_Fin. cbn [dval]. apply Hdelta; assumption.
Qed.

(** ** [projection] *)

Lemma rnorm2_nonzero (n : RVec) : n <> rzero -> rnorm2 n <> 0.
Proof. intros Hn Hz. apply Hn, rnorm2_zero, Hz. Qed.

Lemma rproj_orthogonal (v n : RVec) : rnorm2 n <> 0 -> rdot (rproj v n) n = 0.
Proof.
  intros Hn. destruct v as [v1 v2 v3], n as [n1 n2 n3].
  unfold rproj, rnorm2, rdot, vzip in *; cbn [cx cy cz] in *. field. exact Hn.
Qed.

Lemma rproj_of_orthogonal (p n : RVec) : rdot p n = 0 -> rproj p n = p.
Proof.
  intros Hp. destruct p as [p1 p2 p3]. unfold rproj, vzip. rewrite Hp.
  cbn [cx cy cz]. f_equal; unfold Rdiv; ring.
Qed.

Lemma rnorm2_rproj (v n : RVec) :
  rnorm2 n <> 0 ->
  rnorm2 (rproj v n) = rnorm2 v - rdot v n * rdot v n / rnorm2 n.
Proof.
  intros Hn. destruct v as [v1 v2 v3], n as [n1 n2 n3].
  unfold rproj, rnorm2, rdot, vzip in *; cbn [cx cy cz] in *. field. exact Hn.
Qed.

Lemma rnorm_rproj_le (v n : RVec) : rnorm2 n <> 0 -> rnorm (rproj v n) <= rnorm v.
Proof.
  intros Hn. unfold rnorm. apply sqrt_le_1_alt. rewrite rnorm2_rproj by assumption.
  pose proof (rnorm2_nonneg n).
  assert (Hi : 0 < / rnorm2 n) by (apply Rinv_0_lt_compat; lra).
  unfold Rdiv. nra.
Qed.

Lemma rproj_decompose (v n : RVec) :
  v = radd (rproj v n) (rscale (rdot v n / rnorm2 n) n).
Proof.
  destruct v as [v1 v2 v3]. unfold rproj, radd, rscale, vzip, vmap; cbn [cx cy cz].
  f_equal; ring.
Qed.

(** X12.  For a finite vector and a finite nonzero normal, [projection] is
    the orthogonal projector on the plane normal to [planeNormal]: the
    result is finite and orthogonal to the normal, it is not longer than
    the vector, projecting it again changes nothing, and the vector is the
    result plus a multiple of the normal. *)
Theorem projection_orthogonal_projector (v n : RVec) :
  n <> rzero ->
  exists p : RVec,
    projection (vfin v) (vfin n) = vfin p /\
    rdot p n = 0 /\
    rnorm p <= rnorm v /\
    projection (vfin p) (vfin n) = vfin p /\
    v = radd p (rscale (rdot v n / rnorm2 n) n).
Proof.
  intros Hn. pose proof (rnorm2_nonzero n Hn) as Hn2.
  exists (rproj v n). repeat split.
  - apply projection_vfin; exact Hn2.
  - apply rproj_orthogonal; exact Hn2.
  - apply rnorm_rproj_le; exact Hn2.
  - rewrite projection_vfin by exact Hn2.
    rewrite rproj_of_orthogonal; [reflexivity | apply rproj_orthogonal; exact Hn2].
  - apply rproj_decompose.
Qed.

Lemma projection_orthogonal_projector_witness :
  exists p : RVec,
    projection (vfin (V3 1 2 3)) (vfin (V3 0 0 2)) = vfin p /\
    rdot p (V3 0 0 2) = 0 /\
    rnorm p <= rnorm (V3 1 2 3) /\
    projection (vfin p) (vfin (V3 0 0 2)) = vfin p /\
    V3 1 2 3 = radd p (rscale (rdot (V3 1 2 3) (V3 0 0 2) / rnorm2 (V3 0 0 2)) (V3 0 0 2)).
Proof.
  apply projection_orthogonal_projector.
  intros H. injection H; intros; lra.
Defined.

Lemma rnorm2_rscale (c : R) (n : RVec) : rnorm2 (rscale c n) = c * c * rnorm2 n.
Proof. unfold rnorm2, rdot, rscale, vmap; cbn [cx cy cz]. ring. Qed.

Lemma rproj_rscale_normal (c : R) (v n : RVec) :
  c <> 0 -> rnorm2 n <> 0 -> rproj v (rscale c n) = rproj v n.
Proof.
  intros Hc Hn. destruct v as [v1 v2 v3], n as [n1 n2 n3].
  unfold rproj, rnorm2, rdot, rscale, vzip, vmap in *; cbn [cx cy cz] in *.
  assert (Hcn : c * n1 * (c * n1) + c * n2 * (c * n2) + c * n3 * (c * n3) <> 0).
  { intros H.
    assert (E : c * c * (n1 * n1 + n2 * n2 + n3 * n3) = 0) by (rewrite <- H; ring).
    apply Rmult_integral in E. destruct E as [E | E]; [ | contradiction].
    apply Rmult_integral in E. destruct E; contradiction. }
  f_equal; field; split; assumption.
Qed.

(** X13.  The length and the orientation of the normal do not matter:
    [projection] returns the same vector for [planeNormal] and for any
    nonzero multiple of it, its opposite included. *)
Theorem projection_ignores_normal_length (c : R) (v n : RVec) :
  c <> 0 ->
  projection (vfin v) (vfin (rscale c n)) = projection (vfin v) (vfin n).
Proof.
  intros Hc. destruct (Req_dec_T (rnorm2 n) 0) as [Hz | Hn].
  - rewrite !projection_degenerate; [reflexivity | exact Hz | ].
    rewrite rnorm2_rscale, Hz. ring.
  - rewrite !projection_vfin; [ | exact Hn | ].
    + rewrite rproj_rscale_normal by assumption. reflexivity.
    + rewrite rnorm2_rscale. intros H.
      apply Rmult_integral in H. destruct H as [H | H]; [ | contradiction].
      apply Rmult_integral in H. destruct H; contradiction.
Qed.

Lemma projection_ignores_normal_length_witness :
  projection (vfin (V3 1 2 3)) (vfin (rscale (-1) (V3 0 0 1)))
  = projection (vfin (V3 1 2 3)) (vfin (V3 0 0 1)).
Proof.
  apply projection_ignores_normal_length. lra.
Defined.

(** X14.  [projection] has no guard on the normal: on finite vectors its
    result is the vector of NaNs exactly when the normal is the zero
    vector (the quotient is then [0/0]). *)
Theorem projection_zero_normal (v n : RVec) :
  projection (vfin v) (vfin n) = vNaN <-> n = rzero.
Proof.
  split.
  - intros H. destruct (Req_dec_T (rnorm2 n) 0) as [Hz | Hn].
    + apply rnorm2_zero; exact Hz.
    + rewrite projection_vfin in H by exact Hn. discriminate H.
  - intros ->. apply projection_degenerate.
    unfold rnorm2, rdot, rzero; cbn [cx cy cz]. ring.
Qed.

(** ** The estimator: which normals matter *)

Lemma fold_left_ext_in {A B : Type} (F G : A -> B -> A) (l : list B) (a : A) :
  (forall acc x, In x l -> F acc x = G acc x) -> fold_left F l a = fold_left G l a.
Proof.
  revert a. induction l as [ | x l IH]; intros a H; [reflexivity | ].
  cbn [fold_left]. rewrite (H a x) by (left; reflexivity).
  apply IH. intros acc y Hy. apply H. right; exact Hy.
Qed.

(** X15.  The curvature of sample [f] reads the normals of the other samples
    of positive weight only: the normal of [f] itself and the normals of the
    samples out of its ball can be changed at will.  This holds for every
    value of the doubles. *)
Theorem curvature_ignores_other_normals (positions : list RealPoint)
    (normals normals' : list RealVector) (cRadius : double)
    (cDistribType : DistributionType) (f : nat) :
  (forall g : nat,
      g <> f ->
      (fst (nth g (RadialDistance_call
                     (RadialDistance_new (nth f positions vzero) cRadius cDistribType)
                     positions) (Fin 0, Fin 0)) >? Fin 0)%dbl = true ->
      nth g normals vzero = nth g normals' vzero) ->
  curvatureOf positions normals cRadius cDistribType f
  = curvatureOf positions normals' cRadius cDistribType f.
Proof.
  intros H. unfold curvatureOf, sums. cbv zeta.
  rewrite (fold_left_ext_in
             (accumulate positions normals f (nth f positions vzero) _)
             (accumulate positions normals' f (nth f positions vzero)
                (RadialDistance_call
                   (RadialDistance_new (nth f positions vzero) cRadius cDistribType)
                   positions))); [reflexivity | ].
  intros [top bottom] g _. unfold accumulate.
  destruct (fst (nth g (RadialDistance_call
                          (RadialDistance_new (nth f positions vzero) cRadius cDistribType)
                          positions) (Fin 0, Fin 0)) >? Fin 0)%dbl eqn:Hw; [ | reflexivity].
  destruct (Nat.eqb_spec f g) as [-> | Hne]; [reflexivity | ].
  cbn [negb]. rewrite (H g) by (congruence || exact Hw). reflexivity.
Qed.

Lemma curvature_ignores_other_normals_witness :
  curvatureOf (map vfin cross) (V3 (Fin 0) (Fin 0) (Fin 1) :: map vfin (tl upward))
    (Fin 2) Cone 0
  = curvatureOf (map vfin cross) (V3 NaN (Fin 7) (Fin 1) :: map vfin (tl upward))
      (Fin 2) Cone 0.
Proof.
  apply curvature_ignores_other_normals.
  intros g Hg _. destruct g as [ | g]; [contradiction | reflexivity].
Defined.

Lemma rnorm2_rscale_zero (c : R) (n : RVec) :
  c <> 0 -> (rnorm2 (rscale c n) = 0 <-> rnorm2 n = 0).
Proof.
  intros Hc. rewrite rnorm2_rscale. split; intros H.
  - apply Rmult_integral in H. destruct H as [H | H]; [ | exact H].
    apply Rmult_integral in H. destruct H; contradiction.
  - rewrite H. ring.
Qed.

Lemma contribution_rscale_normal (c w : R) (v n : RVec) :
  c <> 0 -> contribution w v (rscale c n) = contribution w v n.
Proof.
  intros Hc. unfold contribution.
  pose proof (rnorm2_rscale_zero c n Hc) as Hz.
  destruct (Req_dec_T (rnorm2 (rscale c n)) 0) as [H | H],
           (Req_dec_T (rnorm2 n) 0) as [H' | H']; try reflexivity.
  - exfalso. apply H', Hz, H.
  - exfalso. apply H, Hz, H'.
  - rewrite rproj_rscale_normal by assumption. reflexivity.
Qed.

Lemma rcurvature_ext_normals (ps ns ns' : list RVec) (R0 : R) (k : DistributionType)
    (f : nat) :
  (forall w v g, contribution w v (nrm ns' g) = contribution w v (nrm ns g)) ->
  rcurvature ps ns' R0 k f = rcurvature ps ns R0 k f.
Proof.
  intros H. unfold rcurvature, rsums.
  rewrite (fold_left_ext_in (rstep ps ns' R0 k f) (rstep ps ns R0 k f));
    [reflexivity | ].
  intros acc g _. unfold rstep. rewrite H. reflexivity.
Qed.

(** X16.  The estimate does not depend on the length or the orientation of
    the normals: multiplying each normal by a nonzero factor of its own,
    [-1] included, gives the same curvature vectors. *)
Theorem estimate_ignores_normal_lengths (ps ns ns' : list RVec) (R0 : R)
    (k : DistributionType) :
  length ns' = length ns ->
  (forall g : nat, (g < length ns)%nat ->
                   exists c : R, c <> 0 /\ nth g ns' rzero = rscale c (nth g ns rzero)) ->
  estimateCurvatures (map vfin ps) (map vfin ns') (Fin R0) k
  = estimateCurvatures (map vfin ps) (map vfin ns) (Fin R0) k.
Proof.
  intros Hlen Hscale. rewrite !estimateCurvatures_mirror.
  apply map_ext. intros f. f_equal. apply rcurvature_ext_normals.
  intros w v g. unfold nrm.
  destruct (Nat.lt_ge_cases g (length ns)) as [Hg | Hg].
  - destruct (Hscale g Hg) as [c [Hc ->]]. apply contribution_rscale_normal; exact Hc.
  - rewrite !nth_overflow by lia. reflexivity.
Qed.

Lemma estimate_ignores_normal_lengths_witness :
  estimateCurvatures (map vfin [V3 0 0 0; V3 1 0 0]) (map vfin [V3 0 0 (-1); V3 0 3 3])
    (Fin 2) Cone
  = estimateCurvatures (map vfin [V3 0 0 0; V3 1 0 0]) (map vfin [V3 0 0 1; V3 0 1 1])
      (Fin 2) Cone.
Proof.
  apply estimate_ignores_normal_lengths.
  - reflexivity.
  - intros g Hg. destruct g as [ | [ | g]].
    + exists (-1). split; [lra | ].
      unfold rscale, vmap; cbn [nth cx cy cz]. f_equal; ring.
    + exists 3. split; [lra | ].
      unfold rscale, vmap; cbn [nth cx cy cz]. f_equal; ring.
    + simpl in Hg. lia.
Defined.

(** ** The estimator: when the result is not a number *)

Lemma osum_None_iff (l : list (option RVec)) : osum l = None <-> In None l.
Proof.
  split; [ | apply osum_None].
  induction l as [ | a l IH]; unfold osum in *; cbn [fold_right]; intros H.
  - discriminate.
  - destruct a as [u | ]; [ | left; reflexivity].
    right. apply IH. destruct (fold_right oadd (Some rzero) l); [discriminate | reflexivity].
Qed.

Lemma contribution_None_iff (w : R) (v n : RVec) :
  contribution w v n = None <-> rnorm2 n = 0 \/ rnorm v = 0.
Proof.
  unfold contribution.
  destruct (Req_dec_T (rnorm2 n) 0) as [Hn | Hn]; [tauto | ].
  destruct (Req_dec_T (rnorm v) 0) as [Hv | Hv]; [tauto | ].
  split; [discriminate | intros [H | H]; contradiction].
Qed.

Lemma w_pos_iff (ps : list RVec) (R0 : R) (k : DistributionType) (f g : nat) :
  0 < R0 -> (0 < w_ ps R0 k f g <-> rnorm (rsub (pos ps f) (pos ps g)) < R0).
Proof.
  intros HR. unfold w_, weight.
  pose proof (rnorm_nonneg (rsub (pos ps f) (pos ps g))) as Hd.
  set (d := rnorm (rsub (pos ps f) (pos ps g))) in *.
  assert (E : d = d / R0 * R0) by (field; lra).
  destruct (Rlt_dec (d / R0) 1) as [Ht | Ht].
  - assert (Hlt : d < R0) by nra.
    pose proof (profile_pos_inside k (d / R0) (ratio_in_unit d R0 (conj Hd Hlt))).
    tauto.
  - split; intros H; [lra | ].
    exfalso. apply Ht. apply (ratio_in_unit d R0). lra.
Qed.

Lemma rsub_zero_iff (a b : RVec) : rnorm (rsub a b) = 0 <-> a = b.
Proof.
  split.
  - intros H. apply rnorm_zero in H. destruct a as [a1 a2 a3], b as [b1 b2 b3].
    unfold rsub, rzero, vzip in H; cbn [cx cy cz] in H.
    injection H as H1 H2 H3. f_equal; lra.
  - intros ->. rewrite rsub_self. apply rnorm_rzero.
Qed.

(** X17.  With [R > 0] and finite data the curvature of a sample is either
    a vector of three finite numbers or the vector of three NaNs, never an
    infinity and never a mixture.  It is the NaN vector exactly when some
    other sample strictly inside the ball lies at the very position of the
    sample or has a zero normal. *)
Theorem curvature_nan_iff (ps ns : list RVec) (R0 : R) (k : DistributionType) (f : nat) :
  0 < R0 -> (f < length ps)%nat ->
  let c := nth f (estimateCurvatures (map vfin ps) (map vfin ns) (Fin R0) k) vzero in
  (c = vNaN \/ exists u : RVec, c = vfin u) /\
  (c = vNaN <->
   exists g : nat,
     (g < length ps)%nat /\ g <> f /\
     rnorm (rsub (nth f ps rzero) (nth g ps rzero)) < R0 /\
     (nth g ps rzero = nth f ps rzero \/ nth g ns rzero = rzero)).
Proof.
  intros HR Hf c. unfold c.
  rewrite estimateCurvatures_nth, rcurvature_formula by assumption.
  unfold curvature_formula. split.
  - destruct (numerator ps ns R0 k f); [right; eexists; reflexivity | left; reflexivity].
  - assert (Hnum : numerator ps ns R0 k f = None <->
                   exists g : nat,
                     (g < length ps)%nat /\ g <> f /\
                     rnorm (rsub (nth f ps rzero) (nth g ps rzero)) < R0 /\
                     (nth g ps rzero = nth f ps rzero \/ nth g ns rzero = rzero)).
    { unfold numerator. rewrite osum_None_iff, in_map_iff. split.
      - intros [g [Hc Hg]]. unfold others in Hg. apply filter_In in Hg.
        destruct Hg as [Hin Hg]. apply in_seq in Hin.
        apply andb_prop in Hg. destruct Hg as [Hne Hw].
        apply negb_true_iff, Nat.eqb_neq in Hne. apply Rltb_spec in Hw.
        exists g. split; [lia | split; [exact Hne | split] ].
        + apply (w_pos_iff ps R0 k f g HR). exact Hw.
        + apply contribution_None_iff in Hc. destruct Hc as [Hc | Hc].
          * right. apply rnorm2_zero. exact Hc.
          * left. apply rsub_zero_iff. exact Hc.
      - intros [g [Hg [Hne [Hd Hdeg]]]]. exists g. split.
        + apply contribution_None_iff. destruct Hdeg as [Hp | Hn].
          * right. apply rsub_zero_iff. exact Hp.
          * left. unfold nrm. rewrite Hn.
            unfold rnorm2, rdot, rzero; cbn [cx cy cz]. ring.
        + unfold others. apply filter_In. split; [apply in_seq; lia | ].
          apply andb_true_intro. split.
          * apply negb_true_iff, Nat.eqb_neq. exact Hne.
          * apply Rltb_true. apply (w_pos_iff ps R0 k f g HR). exact Hd. }
    rewrite <- Hnum.
    destruct (numerator ps ns R0 k f); cbn [embed]; split; intros H;
      try reflexivity; discriminate H.
Qed.

Lemma curvature_nan_iff_witness :
  (nth 0 (estimateCurvatures (map vfin cross) (map vfin upward) (Fin 2) Cone) vzero = vNaN
   \/ exists u : RVec,
        nth 0 (estimateCurvatures (map vfin cross) (map vfin upward) (Fin 2) Cone) vzero
        = vfin u) /\
  (nth 0 (estimateCurvatures (map vfin cross) (map vfin upward) (Fin 2) Cone) vzero = vNaN
   <->
   exists g : nat,
     (g < length cross)%nat /\ g <> 0%nat /\
     rnorm (rsub (nth 0 cross rzero) (nth g cross rzero)) < 2 /\
     (nth g cross rzero = nth 0 cross rzero \/ nth g upward rzero = rzero)).
Proof.
  apply (curvature_nan_iff cross upward 2 Cone 0).
  - lra.
  - simpl; lia.
Defined.

(** ** The estimator: change of scale *)

Lemma rnorm_rscale_pos (s : R) (u : RVec) : 0 <= s -> rnorm (rscale s u) = s * rnorm u.
Proof.
  intros Hs. unfold rnorm. rewrite rnorm2_rscale.
  rewrite sqrt_mult; [ | nra | apply rnorm2_nonneg].
  rewrite sqrt_square by assumption. reflexivity.
Qed.

Lemma rsub_rscale (s : R) (a b : RVec) :
  rsub (rscale s a) (rscale s b) = rscale s (rsub a b).
Proof. unfold rsub, rscale, vzip, vmap; cbn [cx cy cz]. f_equal; ring. Qed.

Lemma pos_scaled (s : R) (ps : list RVec) (g : nat) :
  pos (map (rscale s) ps) g = rscale s (pos ps g).
Proof.
  unfold pos. rewrite <- (rscale_rzero s) at 1. apply map_nth.
Qed.

Lemma rweight_scaled (s R0 : R) (k : DistributionType) (d : R) :
  0 < s -> 0 <= d -> rweight (s * R0) k (s * d) = rweight R0 k d.
Proof.
  intros Hs Hd. unfold rweight.
  destruct (Rlt_dec (s * d) (s * R0)) as [H | H], (Rlt_dec d R0) as [H' | H'];
    try reflexivity; try (exfalso; nra).
  f_equal. field. split; lra.
Qed.

Lemma rproj_rscale_vector (s : R) (v n : RVec) :
  rproj (rscale s v) n = rscale s (rproj v n).
Proof.
  destruct v as [v1 v2 v3], n as [n1 n2 n3].
  unfold rproj, rnorm2, rdot, rscale, vzip, vmap, Rdiv; cbn [cx cy cz]. f_equal; ring.
Qed.

Lemma contribution_scaled (s w : R) (v n : RVec) :
  0 < s -> contribution w (rscale s v) n = contribution w v n.
Proof.
  intros Hs. unfold contribution. rewrite rnorm_rscale_pos by lra.
  destruct (Req_dec_T (rnorm2 n) 0) as [Hn | Hn]; [reflexivity | ].
  destruct (Req_dec_T (s * rnorm v) 0) as [H | H], (Req_dec_T (rnorm v) 0) as [H' | H'];
    try reflexivity.
  - exfalso. apply Rmult_integral in H. destruct H; [lra | contradiction].
  - exfalso. apply H. rewrite H'. ring.
  - rewrite rproj_rscale_vector. f_equal.
    unfold rdivs, rscale, vmap; cbn [cx cy cz]. f_equal; field; split; (lra || assumption).
Qed.

Lemma rstep_scaled (s : R) (ps ns : list RVec) (R0 : R) (k : DistributionType)
    (f g : nat) (acc : option RVec * R) :
  0 < s ->
  rstep (map (rscale s) ps) ns (s * R0) k f acc g = rstep ps ns R0 k f acc g.
Proof.
  intros Hs. unfold rstep. rewrite !pos_scaled, rsub_rscale.
  rewrite rnorm_rscale_pos by lra.
  rewrite rweight_scaled by (lra || apply rnorm_nonneg).
  rewrite contribution_scaled by assumption. reflexivity.
Qed.

Lemma rcurvature_scaled (s : R) (ps ns : list RVec) (R0 : R) (k : DistributionType)
    (f : nat) :
  0 < s ->
  rcurvature (map (rscale s) ps) ns (s * R0) k f
  = option_map (fun u => rdivs u s) (rcurvature ps ns R0 k f).
Proof.
  intros Hs. unfold rcurvature, rsums. rewrite length_map.
  rewrite (fold_left_ext_in (rstep (map (rscale s) ps) ns (s * R0) k f)
             (rstep ps ns R0 k f))
    by (intros acc g _; apply rstep_scaled; exact Hs).
  destruct (fold_left (rstep ps ns R0 k f) (seq 0 (length ps)) (Some rzero, 0))
    as [[top | ] bottom]; [ | reflexivity].
  destruct (Req_dec_T (bottom * (s * R0)) 0) as [H | H],
           (Req_dec_T (bottom * R0) 0) as [H' | H']; cbn [option_map]; try reflexivity.
  - exfalso. apply H'. replace (bottom * (s * R0)) with (s * (bottom * R0)) in H by ring.
    apply Rmult_integral in H. destruct H; [lra | assumption].
  - exfalso. apply H. replace (bottom * (s * R0)) with (s * (bottom * R0)) by ring.
    rewrite H'. ring.
  - assert (HR : R0 <> 0) by (intros E; apply H'; rewrite E; ring).
    assert (Hb : bottom <> 0) by (intros E; apply H'; rewrite E; ring).
    f_equal. unfold rdivs, ropp, vmap; cbn [cx cy cz].
    f_equal; field; repeat split; (lra || assumption).
Qed.

Lemma vdivs_embed (o : option RVec) (s : R) :
  s <> 0 -> vdivs (embed o) (Fin s) = embed (option_map (fun u => rdivs u s) o).
Proof.
  intros Hs. destruct o as [u | ]; cbn [embed option_map]; [ | reflexivity].
  apply vdivs_vfin. exact Hs.
Qed.

(** X18.  The estimate scales as a curvature: multiplying every position
    and the radius by [s > 0] divides every curvature vector by [s]. *)
Theorem estimate_scales_inversely (s : R) (ps ns : list RVec) (R0 : R)
    (k : DistributionType) :
  0 < s ->
  estimateCurvatures (map vfin (map (rscale s) ps)) (map vfin ns) (Fin (s * R0)) k
  = map (fun c => vdivs c (Fin s))
        (estimateCurvatures (map vfin ps) (map vfin ns) (Fin R0) k).
Proof.
  intros Hs. rewrite !estimateCurvatures_mirror, length_map, map_map.
  apply map_ext. intros f.
  rewrite rcurvature_scaled by assumption. symmetry. apply vdivs_embed. lra.
Qed.

Lemma estimate_scales_inversely_witness :
  estimateCurvatures (map vfin (map (rscale 2) cross)) (map vfin upward) (Fin (2 * (3 / 2)))
    FlatDisc
  = map (fun c => vdivs c (Fin 2))
        (estimateCurvatures (map vfin cross) (map vfin upward) (Fin (3 / 2)) FlatDisc).
Proof.
  apply estimate_scales_inversely. lra.
Defined.

(** ** The estimator: a bound on the curvature *)

Lemma rnorm_sqr (u : RVec) : rnorm u * rnorm u = rnorm2 u.
Proof. unfold rnorm. apply sqrt_sqrt, rnorm2_nonneg. Qed.

Lemma rdot_le_norms (u v : RVec) : rdot u v <= rnorm u * rnorm v.
Proof.
  pose proof (rnorm_nonneg u) as Hu. pose proof (rnorm_nonneg v) as Hv.
  pose proof (rnorm_sqr u) as Eu. pose proof (rnorm_sqr v) as Ev.
  assert (Hcs : rdot u v * rdot u v <= rnorm2 u * rnorm2 v).
  { destruct u as [u1 u2 u3], v as [v1 v2 v3].
    unfold rnorm2, rdot; cbn [cx cy cz].
    pose proof (Rle_0_sqr (u1 * v2 - u2 * v1)) as H1.
    pose proof (Rle_0_sqr (u1 * v3 - u3 * v1)) as H2.
    pose proof (Rle_0_sqr (u2 * v3 - u3 * v2)) as H3.
    unfold Rsqr in *. nra. }
  rewrite <- Eu, <- Ev in Hcs.
  destruct (Rle_dec (rdot u v) (rnorm u * rnorm v)) as [H | H]; [exact H | exfalso].
  assert (0 <= rnorm u * rnorm v) by nra. nra.
Qed.

Lemma rnorm_triangle (u v : RVec) : rnorm (radd u v) <= rnorm u + rnorm v.
Proof.
  pose proof (rnorm_nonneg u) as Hu. pose proof (rnorm_nonneg v) as Hv.
  pose proof (rnorm_nonneg (radd u v)) as Huv.
  pose proof (rnorm_sqr u) as Eu. pose proof (rnorm_sqr v) as Ev.
  pose proof (rnorm_sqr (radd u v)) as Euv.
  pose proof (rdot_le_norms u v) as Hcs.
  assert (E : rnorm2 (radd u v) = rnorm2 u + 2 * rdot u v + rnorm2 v)
    by (unfold rnorm2, rdot, radd, vzip; cbn [cx cy cz]; ring).
  destruct (Rle_dec (rnorm (radd u v)) (rnorm u + rnorm v)) as [H | H];
    [exact H | exfalso]. nra.
Qed.

Lemma rnorm_ropp (u : RVec) : rnorm (ropp u) = rnorm u.
Proof. unfold rnorm, rnorm2, rdot, ropp, vmap; cbn [cx cy cz]. f_equal. ring. Qed.

Lemma rnorm_rdivs (u : RVec) (a : R) : 0 < a -> rnorm (rdivs u a) = rnorm u / a.
Proof.
  intros Ha. assert (Hi : 0 < / a) by (apply Rinv_0_lt_compat; exact Ha).
  replace (rdivs u a) with (rscale (/ a) u)
    by (unfold rdivs, rscale, vmap, Rdiv; cbn [cx cy cz]; f_equal; ring).
  rewrite rnorm_rscale_pos by lra. unfold Rdiv. ring.
Qed.

Lemma contribution_norm (w : R) (v n p : RVec) :
  0 < w -> contribution w v n = Some p -> rnorm p <= w.
Proof.
  intros Hw. unfold contribution.
  destruct (Req_dec_T (rnorm2 n) 0) as [Hn | Hn]; [discriminate | ].
  destruct (Req_dec_T (rnorm v) 0) as [Hv | Hv]; [discriminate | ].
  intros H. injection H as <-.
  pose proof (rnorm_nonneg v) as Hv0.
  assert (Hpos : 0 < rnorm v) by lra.
  rewrite rnorm_rdivs by exact Hpos. rewrite rnorm_rscale_pos by lra.
  pose proof (rnorm_rproj_le v n Hn) as Hle. pose proof (rnorm_nonneg (rproj v n)).
  assert (Hi : 0 < / rnorm v) by (apply Rinv_0_lt_compat; exact Hpos).
  apply Rmult_le_reg_r with (rnorm v); [exact Hpos | ].
  unfold Rdiv. rewrite Rmult_assoc, Rinv_l by exact Hv. nra.
Qed.

Lemma osum_norm (w : nat -> R) (term : nat -> option RVec) (L : list nat) (u : RVec) :
  (forall g p, In g L -> term g = Some p -> rnorm p <= w g) ->
  osum (map term L) = Some u -> rnorm u <= Rsum (map w L).
Proof.
  revert u. induction L as [ | g L IH]; intros u Hterm Hsum.
  - unfold osum in Hsum; cbn [map fold_right] in Hsum. injection Hsum as <-.
    rewrite rnorm_rzero. simpl. lra.
  - unfold osum in *. cbn [map fold_right] in *.
    destruct (term g) as [p | ] eqn:Eg; [ | discriminate].
    destruct (fold_right oadd (Some rzero) (map term L)) as [r | ]; [ | discriminate].
    cbn [oadd] in Hsum. injection Hsum as <-.
    pose proof (rnorm_triangle p r).
    pose proof (Hterm g p (or_introl eq_refl) Eg).
    assert (rnorm r <= Rsum (map w L)).
    { apply IH; [ | reflexivity]. intros g' p' Hin. apply Hterm. right; exact Hin. }
    unfold Rsum in *. cbn [map fold_right]. lra.
Qed.

Lemma Rsum_filter_split (w : nat -> R) (c : nat -> bool) (f : nat) (l : list nat) :
  Rsum (map w (filter c l))
  = Rsum (map w (filter (fun g => negb (Nat.eqb g f) && c g) l))
    + Rsum (map w (filter (fun g => Nat.eqb g f && c g) l)).
Proof.
  induction l as [ | g l IH]; [simpl; ring | ].
  cbn [filter]. destruct (Nat.eqb g f), (c g); cbn [negb andb map];
    unfold Rsum in *; cbn [fold_right]; lra.
Qed.

Lemma denominator_split (ps : list RVec) (R0 : R) (k : DistributionType) (f : nat) :
  (f < length ps)%nat ->
  denominator ps R0 k f
  = Rsum (map (w_ ps R0 k f) (others ps R0 k f)) + profile k 0.
Proof.
  intros Hf. unfold denominator, inBall, others.
  rewrite (Rsum_filter_split _ _ f). f_equal.
  rewrite (seq_split_at (length ps) f Hf), filter_app. cbn [filter].
  rewrite (filter_none _ (seq 0 f)), (filter_none _ (seq (S f) _)).
  - rewrite Nat.eqb_refl, w_self. rewrite Rltb_true by apply profile_0_pos.
    simpl. rewrite w_self. ring.
  - intros g Hg. apply in_seq in Hg.
    destruct (Nat.eqb_spec g f); [lia | reflexivity].
  - intros g Hg. apply in_seq in Hg.
    destruct (Nat.eqb_spec g f); [lia | reflexivity].
Qed.

(** X19.  With [R > 0], a curvature vector the estimator returns as finite
    numbers is shorter than [1/R]: every term of the numerator is a
    projection of a unit vector weighted by [w_g], and the denominator also
    holds the weight of the sample itself. *)
Theorem curvature_below_inverse_radius (ps ns : list RVec) (R0 : R)
    (k : DistributionType) (f : nat) (c : RVec) :
  0 < R0 -> (f < length ps)%nat ->
  nth f (estimateCurvatures (map vfin ps) (map vfin ns) (Fin R0) k) vzero = vfin c ->
  rnorm c < 1 / R0.
Proof.
  intros HR Hf. rewrite estimateCurvatures_nth, rcurvature_formula by assumption.
  unfold curvature_formula.
  destruct (numerator ps ns R0 k f) as [num | ] eqn:Enum; cbn [embed]; [ | discriminate].
  intros H. assert (Ec : c = rdivs (ropp num) (denominator ps R0 k f * R0)).
  { unfold vfin, vmap in H. injection H as H1 H2 H3.
    destruct c as [c1 c2 c3]. cbn [cx cy cz] in *. subst. reflexivity. }
  clear H. subst c.
  assert (Hnum : rnorm num <= Rsum (map (w_ ps R0 k f) (others ps R0 k f))).
  { apply (osum_norm (w_ ps R0 k f)
             (fun g => contribution (w_ ps R0 k f g) (rsub (pos ps g) (pos ps f)) (nrm ns g)));
      [ | exact Enum].
    intros g p Hin Hp. apply (contribution_norm _ _ _ _) with (2 := Hp).
    unfold others in Hin. apply filter_In in Hin. destruct Hin as [_ Hc].
    apply andb_prop in Hc. destruct Hc as [_ Hw]. apply Rltb_spec in Hw. exact Hw. }
  pose proof (denominator_split ps R0 k f Hf) as HD.
  pose proof (profile_0_pos k) as Hw0.
  pose proof (rnorm_nonneg num) as Hn0.
  set (D := denominator ps R0 k f) in *.
  assert (HDpos : 0 < D) by lra.
  assert (HDR : 0 < D * R0) by nra.
  rewrite rnorm_rdivs by exact HDR. rewrite rnorm_ropp.
  assert (Hi : 0 < / (D * R0)) by (apply Rinv_0_lt_compat; exact HDR).
  apply Rmult_lt_reg_r with (D * R0); [exact HDR | ].
  unfold Rdiv. rewrite Rmult_assoc, Rinv_l by lra.
  replace (1 * / R0 * (D * R0)) with D by (field; lra). lra.
Qed.

Lemma curvature_below_inverse_radius_witness :
  rnorm (V3 ((1 + sqrt 2) / 6) 0 0) < 1 / (3 / 2).
Proof.
  apply (curvature_below_inverse_radius cross upward (3 / 2) FlatDisc 1).
  - lra.
  - simpl; lia.
  - rewrite estimateCurvatures_nth by (simpl; lia).
    rewrite (proj1 (proj2 cross_rcurvature)). reflexivity.
Defined.

(** ** The estimator: a constant field of normals *)

Lemma rdot_radd_l (u v n : RVec) : rdot (radd u v) n = rdot u n + rdot v n.
Proof. unfold rdot, radd, vzip; cbn [cx cy cz]. ring. Qed.

Lemma contribution_tangent (w : R) (v n p : RVec) :
  contribution w v n = Some p -> rdot p n = 0.
Proof.
  unfold contribution.
  destruct (Req_dec_T (rnorm2 n) 0) as [Hn | Hn]; [discriminate | ].
  destruct (Req_dec_T (rnorm v) 0) as [Hv | Hv]; [discriminate | ].
  intros H. injection H as <-.
  pose proof (rproj_orthogonal v n Hn) as Ho.
  replace (rdot (rdivs (rscale w (rproj v n)) (rnorm v)) n)
    with (w * rdot (rproj v n) n / rnorm v)
    by (unfold rdot, rdivs, rscale, vmap; cbn [cx cy cz]; field; exact Hv).
  rewrite Ho. unfold Rdiv. ring.
Qed.

Lemma fold_rstep_tangent (ps ns : list RVec) (R0 : R) (k : DistributionType) (f : nat)
    (n : RVec) (l : list nat) (acc : option RVec * R) :
  (forall g, In g l -> nrm ns g = n) ->
  (forall t, fst acc = Some t -> rdot t n = 0) ->
  forall t, fst (fold_left (rstep ps ns R0 k f) l acc) = Some t -> rdot t n = 0.
Proof.
  revert acc. induction l as [ | g l IH]; intros acc Hn Hacc; [exact Hacc | ].
  cbn [fold_left]. apply IH; [intros g' Hg'; apply Hn; right; exact Hg' | ].
  unfold rstep.
  destruct (Rltb 0 _); [ | exact Hacc].
  destruct (negb (Nat.eqb f g)); cbn [fst]; [ | exact Hacc].
  intros t Ht. destruct (fst acc) as [t0 | ]; [ | discriminate].
  destruct (contribution _ _ (nrm ns g)) as [p | ] eqn:Ep; [ | discriminate].
  cbn [oadd] in Ht. injection Ht as <-.
  rewrite rdot_radd_l, (Hacc t0 eq_refl).
  rewrite (Hn g (or_introl eq_refl)) in Ep.
  rewrite (contribution_tangent _ _ _ _ Ep). ring.
Qed.

(** X20.  When every sample has the same normal [n], a curvature vector the
    estimator returns as finite numbers has no component along [n]: it lies
    in the plane the normals are orthogonal to. *)
Theorem constant_normals_give_tangent_curvature (ps ns : list RVec) (R0 : R)
    (k : DistributionType) (f : nat) (n c : RVec) :
  (f < length ps)%nat ->
  (forall g : nat, (g < length ps)%nat -> nth g ns rzero = n) ->
  nth f (estimateCurvatures (map vfin ps) (map vfin ns) (Fin R0) k) vzero = vfin c ->
  rdot c n = 0.
Proof.
  intros Hf Hn. rewrite estimateCurvatures_nth by assumption.
  unfold rcurvature, rsums.
  assert (Hfold : forall t,
             fst (fold_left (rstep ps ns R0 k f) (seq 0 (length ps)) (Some rzero, 0))
             = Some t -> rdot t n = 0).
  { apply fold_rstep_tangent.
    - intros g Hg. apply in_seq in Hg. apply Hn. lia.
    - cbn [fst]. intros t Ht. injection Ht as <-.
      unfold rdot, rzero; cbn [cx cy cz]. ring. }
  destruct (fold_left (rstep ps ns R0 k f) (seq 0 (length ps)) (Some rzero, 0))
    as [[top | ] bottom]; cbn [embed]; [ | discriminate].
  destruct (Req_dec_T (bottom * R0) 0) as [Hb | Hb]; cbn [embed]; [discriminate | ].
  intros H. assert (Ec : c = rdivs (ropp top) (bottom * R0)).
  { unfold vfin, vmap in H. injection H as H1 H2 H3.
    destruct c as [c1 c2 c3]. cbn [cx cy cz] in *. subst. reflexivity. }
  subst c. specialize (Hfold top eq_refl).
  replace (rdot (rdivs (ropp top) (bottom * R0)) n)
    with (- rdot top n / (bottom * R0))
    by (unfold rdot, rdivs, ropp, vmap; cbn [cx cy cz]; field;
        split; intros E; apply Hb; rewrite E; ring).
  rewrite Hfold. unfold Rdiv. ring.
Qed.

Lemma constant_normals_give_tangent_curvature_witness :
  rdot (V3 ((1 + sqrt 2) / 6) 0 0) (V3 0 0 1) = 0.
Proof.
  apply (constant_normals_give_tangent_curvature cross upward (3 / 2) FlatDisc 1).
  - simpl; lia.
  - intros g Hg. simpl in Hg.
    do 5 (destruct g as [ | g]; [reflexivity | ]). lia.
  - rewrite estimateCurvatures_nth by (simpl; lia).
    rewrite (proj1 (proj2 cross_rcurvature)). reflexivity.
Defined.

(** ** From the curvature vectors to the displayed scalars *)

Lemma dabs_dneg (a : double) : dabs (- a)%dbl = dabs a.
Proof. destruct a as [x | s | ]; cbn; [rewrite Rabs_Ropp | | ]; reflexivity. Qed.

Lemma dabs_dsqrt (a : double) : dabs (dsqrt a) = dsqrt a.
Proof.
  destruct a as [x | [ | ] | ]; try reflexivity.
  unfold dsqrt. destruct (Rltb x 0); [reflexivity | ].
  cbn [dabs]. rewrite Rabs_pos_eq by apply sqrt_pos. reflexivity.
Qed.

Lemma dabs_naiveSigned (v : Varifold) : dabs (naiveSigned v) = norm (curvature v).
Proof.
  unfold naiveSigned, norm.
  destruct (dot (planeNormal v) (curvature v) >? Fin 0)%dbl;
    [ | rewrite dabs_dneg]; apply dabs_dsqrt.
Qed.

(** X21.  Whatever the inputs are (finite or not), the scalars left after
    the naive pass and the sign pass have the norms of the curvature vectors
    as absolute values, sample by sample: the two passes of [main] decide
    signs only. *)
Theorem displayed_scalars_have_curvature_norms
    (ratio : RealPoint -> double -> nat -> double)
    (faces : double -> nat -> list (nat * double)) (vpos : nat -> RealPoint) (n : nat)
    (m : Method) (varifolds : list Varifold) :
  map dabs (correctSigns ratio faces vpos n m (lcsNorm_init varifolds))
  = map (fun v => norm (curvature v)) varifolds.
Proof.
  destruct (correctSigns_correctWith ratio faces vpos n m (lcsNorm_init varifolds))
    as [sumOf [-> _]].
  apply (nth_ext _ _ (dabs NaN) (norm (curvature noVarifold))).
  - rewrite !length_map, length_correctWith. unfold lcsNorm_init. apply length_map.
  - intros i Hi. rewrite length_map, length_correctWith in Hi.
    unfold lcsNorm_init in Hi. rewrite length_map in Hi.
    rewrite (map_nth dabs), dabs_correctWith.
    rewrite (map_nth (fun v => norm (curvature v))).
    unfold lcsNorm_init.
    rewrite (nth_indep _ NaN (naiveSigned noVarifold)) by (rewrite length_map; exact Hi).
    rewrite (map_nth naiveSigned). apply dabs_naiveSigned.
Qed.
